(** * PBTC: node repository, connection manager, recorder and file writer

    A shallow embedding of the parts of the passive Bitcoin recorder that its
    specification talks about, together with the properties they satisfy.

    Conventions.
    - Go integers are [Z]; where the source converts or wraps, the wrap is
      written out.
    - A Go [map[string]T] is a [gmap string T].  Go iterates a map in an
      unspecified order; wherever the source ranges over a map the order is
      an explicit argument.
    - Types of the Go standard library are kept as the code sees them:
      [net.TCPAddr] is its three exported fields, [time.Time] is opaque and
      is represented by the observations the program makes of it.
    - [String()] methods are instances of the class [Stringer], as the
      source has them behind [fmt.Stringer]. *)

From Stdlib Require Import ZArith Lia Ascii.
From stdpp Require Import base tactics option list strings pretty gmap fin_maps.

Open Scope Z_scope.

(** ** Library types *)

(** [fmt.Stringer]: everything the program prints or uses as a map key. *)
Class Stringer (A : Type) := String_ : A → string.
Arguments String_ {A _} _ : assert.

(** [time.Time].  The program only ever calls [UnixNano()] and
    [Format(time.RFC3339Nano)] / [Format(time.RFC3339)] on a time value. *)
Record Time := mkTime {
  UnixNano : Z;
  Format_RFC3339Nano : string;
  Format_RFC3339 : string
}.

(** [net.IP] is a byte slice; [net.TCPAddr] is a struct of three fields. *)
Definition IP := list Z.

Record TCPAddr := mkTCPAddr {
  addrIP : IP;
  addrPort : Z;
  addrZone : string
}.

(** Package net, as far as the program calls into it.  A nil slice is the
    empty list. *)

(** func (ip IP) To4() IP *)
Definition To4 (ip : IP) : IP :=
  if (length ip =? 4)%nat then ip
  else if (length ip =? 16)%nat
          && forallb (Z.eqb 0) (take 10 ip)
          && bool_decide (ip !! 10%nat = Some 255)
          && bool_decide (ip !! 11%nat = Some 255)
       then drop 12 ip
       else [].

Definition IPv4zero : IP := [0; 0; 0; 0; 0; 0; 0; 0; 0; 0; 255; 255; 0; 0; 0; 0].
Definition IPv6zero : IP := [0; 0; 0; 0; 0; 0; 0; 0; 0; 0; 0; 0; 0; 0; 0; 0].
Definition IPv6loopback : IP :=
  [0; 0; 0; 0; 0; 0; 0; 0; 0; 0; 0; 0; 0; 0; 0; 1].

(** func (ip IP) IsLoopback() bool *)
Definition IsLoopback (ip : IP) : bool :=
  match To4 ip with
  | b :: _ => b =? 127
  | [] => bool_decide (ip = IPv6loopback)
  end.

(** net.FlagUp and net.FlagLoopback *)
Definition FlagUp : Z := 1.
Definition FlagLoopback : Z := 4.

(** An element of the result of [iface.Addrs()]: one of the two address
    types the program looks into, or any other. *)
Inductive Addr :=
  | IPNet (ip : IP) (mask : list Z)
  | IPAddr (ip : IP) (zone : string)
  | OtherAddr.

(** A [net.Interface] with what [Addrs()] answers for it: the addresses, or
    an error. *)
Record Interface := mkInterface {
  Flags : Z;
  Addrs : list Addr + string
}.

(** func strings.HasPrefix and func strings.Contains *)
Fixpoint HasPrefix (s prefix : string) : bool :=
  match prefix, s with
  | EmptyString, _ => true
  | String p prefix', String c s' =>
      bool_decide (p = c) && HasPrefix s' prefix'
  | String _ _, EmptyString => false
  end.

Fixpoint Contains (s substr : string) : bool :=
  HasPrefix s substr
  || match s with
     | EmptyString => false
     | String _ s' => Contains s' substr
     end.

(** The networks of package wire that the program tells apart. *)
Definition MainNet : Z := 0xd9b4bef9.
Definition TestNet : Z := 0xdab5bffa.
Definition TestNet3 : Z := 0x0709110b.
Definition SimNet : Z := 0x12141c16.

(** ** package all: util *)

Module Util.

(** func FindLocalIPs() []net.IP, given what [net.Interfaces()] answers:
    the addresses found and the errors logged. *)
Definition FindLocalIPs_addr (ips : list IP) (addr : Addr) : list IP :=
  match
    match addr with
    | IPNet ip _ => Some ip
    | IPAddr ip _ => Some ip
    | OtherAddr => None
    end
  with
  | None => ips
  | Some ip =>
      (* if the IP is a loopback IP, skip *)
      if IsLoopback ip then ips
      (* if the IP is not a valid IPv4 address, skip *)
      else match To4 ip with
           | [] => ips
           | _ :: _ => ips ++ [ip]
           end
  end.

Definition FindLocalIPs_iface (acc : list IP * list string)
    (iface : Interface) : list IP * list string :=
  let '(ips, logged) := acc in
  (* if the interface is down, skip *)
  if Z.land (Flags iface) FlagUp =? 0 then (ips, logged)
  (* if the interface is loopback, skip *)
  else if negb (Z.land (Flags iface) FlagLoopback =? 0) then (ips, logged)
  else match Addrs iface with
       | inr err => (ips, logged ++ [err])
       | inl addrs => (foldl FindLocalIPs_addr ips addrs, logged)
       end.

Definition FindLocalIPs (interfaces : list Interface + string)
  : list IP * list string :=
  match interfaces with
  | inr err => ([], [err])
  | inl ifaces => foldl FindLocalIPs_iface ([], []) ifaces
  end.

(** func GetDefaultPort() int, for the value of the package variable
    protocolNetwork. *)
Definition GetDefaultPort (protocolNetwork : Z) : Z :=
  if protocolNetwork =? SimNet then 18555
  else if protocolNetwork =? TestNet then 18444
  else if protocolNetwork =? TestNet3 then 18333
  else if protocolNetwork =? MainNet then 8333
  else 0.

(** func MinUint32(x uint32, y uint32) uint32 *)
Definition MinUint32 (x y : Z) : Z :=
  if x >? y then x else y.

End Util.

(** ** package all: repository *)

Module Repository.

Record node := mkNode {
  addr : TCPAddr;
  src : TCPAddr;
  attempts : Z;
  lastAttempt : option Time;
  lastSuccess : option Time;
  lastConnect : option Time
}.

(** func newNode(addr, src): the remaining fields keep their zero value. *)
Definition newNode (a s : TCPAddr) : node :=
  {| addr := a; src := s; attempts := 0;
     lastAttempt := None; lastSuccess := None; lastConnect := None |}.

Abbreviation index := (gmap string node).

(** The two errors [Get] can return. *)
Inductive error :=
  | ErrNoNodes        (* "No nodes in repository" *)
  | ErrNoQualified.   (* "No qualified node found" *)

(** What the node handler can receive in one turn of its [select]. *)
Inductive event :=
  | SigNodeValue              (* a value on sigNode: ok = true *)
  | SigNodeClosed             (* sigNode closed: ok = false *)
  | NodeQ (n : node).         (* a node from nodeQ *)

(** How one turn of the loop ends. *)
Inductive control :=
  | Continue        (* next turn of the select loop *)
  | Break           (* break NodeLoop *)
  | Return.         (* return from inside the loop *)

(** What [gob.NewDecoder(file).Decode(&repo.nodeIndex)] found on disk.
    The decoder stores every entry it reads into the map it is given; when
    the stream breaks off it reports an error after the entries read so
    far. *)
Inductive nodesFile :=
  | NoFile
  | GobStream (entries : list (string * node)) (complete : bool).

(** The file operations [save] performs, in order. *)
Inductive fsop :=
  | OpCreate (name : string)                  (* os.Create: create or truncate *)
  | OpWrite (name : string) (data : list Z)   (* one Write on the open file *)
  | OpRename (old new : string)               (* os.Rename *)
  | OpClose (name : string).

Abbreviation disk := (gmap string (list Z)).

(** type repository.  The two signal channels are only ever closed: [true]
    once they are.  [repo_nodeQ] holds the nodes sent and not yet received;
    addrQ is never used. *)
Record repository := mkRepository {
  repo_nodeIndex : index;
  repo_sigSave : bool;
  repo_sigNode : bool;
  repo_nodeQ : list node;
  repo_wg : Z;
  repo_state : Z
}.

(** What the save handler can receive in one turn of its [select]; a tick
    comes with the index as it is then and with whether [os.Create]
    succeeds. *)
Inductive save_event :=
  | SigSaveValue
  | SigSaveClosed
  | SaveTick (createOk : bool) (nodeIndex : index).

(** func net.JoinHostPort(host, port string) string *)
Definition JoinHostPort (host port : string) : string :=
  if Contains host ":" || Contains host "%"
  then "[" +:+ host +:+ "]:" +:+ port
  else host +:+ ":" +:+ port.

Section WithConstants.

Context `{!Stringer TCPAddr}.
(** const maxNodeCount, declared elsewhere in the package. *)
Variable maxNodeCount : Z.

(** func (repo *repository) Update(addr, src): the new index and the node
    sent on nodeQ, if any. *)
Definition Update (nodeIndex : index) (a s : TCPAddr) : index * option node :=
  match nodeIndex !! String_ a with
  | Some n =>
      (<[String_ a := {| addr := addr n; src := s; attempts := attempts n;
                         lastAttempt := lastAttempt n;
                         lastSuccess := lastSuccess n;
                         lastConnect := lastConnect n |}]> nodeIndex, None)
  | None => (nodeIndex, Some (newNode a s))
  end.

(** func (repo *repository) Attempt(addr) *)
Definition Attempt (now : Time) (nodeIndex : index) (a : TCPAddr) : index :=
  match nodeIndex !! String_ a with
  | None => nodeIndex
  | Some n =>
      <[String_ a := {| addr := addr n; src := src n;
                        attempts := (attempts n + 1) mod 2 ^ 32;
                        lastAttempt := Some now;
                        lastSuccess := lastSuccess n;
                        lastConnect := lastConnect n |}]> nodeIndex
  end.

(** func (repo *repository) Connected(addr) *)
Definition Connected (now : Time) (nodeIndex : index) (a : TCPAddr) : index :=
  match nodeIndex !! String_ a with
  | None => nodeIndex
  | Some n =>
      <[String_ a := {| addr := addr n; src := src n; attempts := attempts n;
                        lastAttempt := lastAttempt n;
                        lastSuccess := lastSuccess n;
                        lastConnect := Some now |}]> nodeIndex
  end.

(** func (repo *repository) Good(addr) *)
Definition Good (now : Time) (nodeIndex : index) (a : TCPAddr) : index :=
  match nodeIndex !! String_ a with
  | None => nodeIndex
  | Some n =>
      <[String_ a := {| addr := addr n; src := src n; attempts := 0;
                        lastAttempt := lastAttempt n;
                        lastSuccess := Some now;
                        lastConnect := lastConnect n |}]> nodeIndex
  end.

(** The [for _, node := range repo.nodeIndex] loop of [Get], over the
    entries in the order the runtime yields them, counting from [i]. *)
Fixpoint Get_loop (target i : Z) (entries : list (string * node))
  : option TCPAddr :=
  match entries with
  | [] => None
  | (_, n) :: rest =>
      if i =? target then Some (addr n) else Get_loop target (i + 1) rest
  end.

(** func (repo *repository) Get(): an address or an error.
    [r] is the value of [rand.Int()]; [order] is the order in which the
    runtime ranges over the map. *)
Definition Get (r : Z) (nodeIndex : index) (order : list (string * node))
  : TCPAddr + error :=
  if Z.of_nat (size nodeIndex) =? 0 then inr ErrNoNodes
  else
    let target := Z.rem r (Z.of_nat (size nodeIndex)) in
    match Get_loop target 0 order with
    | Some a => inl a
    | None => inr ErrNoQualified
    end.

(** One turn of the select loop of [handleNodes]. *)
Definition handleNodes_turn (nodeIndex : index) (e : event)
  : index * control :=
  match e with
  | SigNodeValue => (nodeIndex, Continue)
  | SigNodeClosed => (nodeIndex, Break)
  | NodeQ n =>
      match nodeIndex !! String_ (addr n) with
      | Some _ => (nodeIndex, Return)
      | None =>
          if Z.of_nat (size nodeIndex) >=? maxNodeCount
          then (nodeIndex, Return)
          else (<[String_ (addr n) := n]> nodeIndex, Continue)
      end
  end.

(** func (repo *repository) handleNodes(): the handler run against the
    events that arrive, until it leaves the loop or the events run out (the
    handler is then blocked in its [select], [Continue]). *)
Fixpoint handleNodes (nodeIndex : index) (events : list event)
  : index * control :=
  match events with
  | [] => (nodeIndex, Continue)
  | e :: rest =>
      match handleNodes_turn nodeIndex e with
      | (nodeIndex', Continue) => handleNodes nodeIndex' rest
      | stop => stop
      end
  end.

(** func (repo *repository) restore() *)
Definition restore (nodeIndex : index) (f : nodesFile) : index :=
  match f with
  | NoFile => nodeIndex
  | GobStream entries _ =>
      foldl (λ m kn, <[kn.1 := kn.2]> m) nodeIndex entries
  end.

(** func (repo *repository) save(): the operations on the file system, given
    whether [os.Create] succeeds and the messages the gob encoder emits for
    the index, each message being one write on the file. *)
Definition save (createOk : bool) (gobEncode : index → list (list Z))
    (nodeIndex : index) : list fsop :=
  if createOk
  then OpCreate "nodes.dat"
         :: (OpWrite "nodes.dat" <$> gobEncode nodeIndex)
         ++ [OpClose "nodes.dat"]
  else [].

(** func (repo *repository) local(addr *net.TCPAddr) *net.TCPAddr *)
Definition local (a : TCPAddr) : TCPAddr :=
  {| addrIP := match To4 (addrIP a) with
               | _ :: _ => IPv4zero
               | [] => IPv6zero
               end;
     addrPort := 0;
     addrZone := "" |}.

(** func (repo *repository) handleSave(): the operations on the file system
    and how the loop ends (blocked in its [select] when the events run
    out). *)
Fixpoint handleSave (gobEncode : index → list (list Z))
    (events : list save_event) : list fsop * control :=
  match events with
  | [] => ([], Continue)
  | SigSaveValue :: rest => handleSave gobEncode rest
  | SigSaveClosed :: _ => ([], Break)
  | SaveTick createOk nodeIndex :: rest =>
      let '(ops, c) := handleSave gobEncode rest in
      (save createOk gobEncode nodeIndex ++ ops, c)
  end.

(** const stateIdle, stateBusy, stateRunning and bufferRepoNode, the
    package variable protocolNetwork, and the answers of the resolver
    ([net.LookupIP], [net.ResolveTCPAddr] on a host:port string) and of
    [ip.String()]. *)
Variables stateIdle stateBusy stateRunning : Z.
Variable bufferRepoNode : Z.
Variable protocolNetwork : Z.
Variable LookupIP : string → list IP + string.
Variable ResolveTCPAddr : string → TCPAddr + string.
Context `{!Stringer IP}.

Definition seeds : list string :=
  [ "testnet-seed.alexykot.me";
    "testnet-seed.bitcoin.petertodd.org";
    "testnet-seed.bluematt.me";
    "testnet-seed.bitcoin.schildbach.de" ].

(** The body of the inner loop of [bootstrap], for one IP of a seed.  The
    state is the index, the nodes sent on nodeQ and not yet received, and
    the lines logged; [None] when the send in [Update] finds the queue
    full, and so waits for the handler. *)
Definition bootstrap_ip (st : index * list node * list string) (ip : IP)
  : option (index * list node * list string) :=
  let '(nodeIndex, nodeQ, logged) := st in
  let port := Util.GetDefaultPort protocolNetwork in
  match ResolveTCPAddr (JoinHostPort (String_ ip) (pretty port)) with
  | inr _ => Some st
  | inl a =>
      (* check if we already know this address, if so we skip *)
      match nodeIndex !! String_ a with
      | Some _ => Some st
      | None =>
          match Update nodeIndex a (local a) with
          | (nodeIndex, None) => Some (nodeIndex, nodeQ, logged)
          | (nodeIndex, Some n) =>
              (* repo.nodeQ <- n *)
              if Z.of_nat (length nodeQ) <? bufferRepoNode
              then Some (nodeIndex, nodeQ ++ [n], logged)
              else None
          end
      end
  end.

(** The body of the outer loop of [bootstrap], for one seed. *)
Definition bootstrap_seed (st : index * list node * list string)
    (seed : string) : option (index * list node * list string) :=
  let '(nodeIndex, nodeQ, logged) := st in
  match LookupIP seed with
  | inr _ =>
      Some (nodeIndex, nodeQ, logged ++ ["Could not look up IPs " +:+ seed])
  | inl ips =>
      foldl (λ st ip, st ≫= λ st, bootstrap_ip st ip)
        (Some (nodeIndex, nodeQ,
               logged ++ ["Looked up IPs " +:+ seed +:+ " "
                            +:+ pretty (Z.of_nat (length ips))]))
        ips
  end.

(** func (repo *repository) bootstrap(), read with the node handler not
    taking a turn meanwhile: what it sends stays on nodeQ. *)
Definition bootstrap (nodeIndex : index) (nodeQ : list node)
  : option (index * list node * list string) :=
  match
    foldl (λ st seed, st ≫= λ st, bootstrap_seed st seed)
      (Some (nodeIndex, nodeQ,
             ["Bootstrapping from DNS seeds "
                +:+ pretty (Z.of_nat (length seeds))]))
      seeds
  with
  | Some (nodeIndex, nodeQ, logged) =>
      Some (nodeIndex, nodeQ,
            logged ++ ["Finished bootstrapping from DNS seeds"])
  | None => None
  end.

(** func (repo *repository) Start(), given the node file that is on disk;
    [None] when it does not get past [bootstrap]. *)
Definition Start (f : nodesFile) (repo : repository) : option repository :=
  (* atomic.CompareAndSwapUint32(&repo.state, stateIdle, stateBusy) *)
  if negb (repo_state repo =? stateIdle) then Some repo
  else
    (* restore nodes from the disk *)
    let nodeIndex := restore (repo_nodeIndex repo) f in
    (* repo.wg.Add(2); go repo.handleNodes(); go repo.handleSave() *)
    let wg := repo_wg repo + 2 in
    (* bootstrap ips from the known dns seeds *)
    match bootstrap nodeIndex (repo_nodeQ repo) with
    | None => None
    | Some (nodeIndex, nodeQ, _) =>
        Some {| repo_nodeIndex := nodeIndex;
                repo_sigSave := repo_sigSave repo;
                repo_sigNode := repo_sigNode repo;
                repo_nodeQ := nodeQ;
                repo_wg := wg;
                repo_state := stateRunning |}
    end.

(** func (repo *repository) Stop(): the repository afterwards and the
    operations on the file system, or [None] when it panics, which is what
    closing a closed channel does. *)
Definition Stop (createOk : bool) (gobEncode : index → list (list Z))
    (repo : repository) : option (repository * list fsop) :=
  (* atomic.CompareAndSwapUint32(&repo.state, stateRunning, stateBusy) *)
  if negb (repo_state repo =? stateRunning) then Some (repo, [])
  else
    (* close(repo.sigSave) *)
    if repo_sigSave repo then None
    (* close(repo.sigNode) *)
    else if repo_sigNode repo then None
    else
      Some ({| repo_nodeIndex := repo_nodeIndex repo;
               repo_sigSave := true;
               repo_sigNode := true;
               repo_nodeQ := repo_nodeQ repo;
               repo_wg := repo_wg repo;
               repo_state := stateIdle |},
            (* save the nodes to disk one last time *)
            save createOk gobEncode (repo_nodeIndex repo)).

(** func NewRepository() *repository *)
Definition NewRepository : repository :=
  {| repo_nodeIndex := ∅; repo_sigSave := false; repo_sigNode := false;
     repo_nodeQ := []; repo_wg := 0; repo_state := stateIdle |}.

End WithConstants.

(** The file system under one operation, and under a sequence of them. *)
Definition fs_step (d : disk) (op : fsop) : disk :=
  match op with
  | OpCreate name => <[name := []]> d
  | OpWrite name data => alter (λ old, old ++ data) name d
  | OpRename old new =>
      match d !! old with
      | Some c => <[new := c]> (delete old d)
      | None => d
      end
  | OpClose _ => d
  end.

Definition fs_run (d : disk) (ops : list fsop) : disk :=
  foldl fs_step d ops.

End Repository.

(** ** package all: manager *)

Module Manager.

Inductive level := Debug | Notice | Warning.

(** What [processNewPeer] and [processDonePeer] do besides updating the
    index: log lines and calls on the peer, in program order. *)
Inductive effect (peer : Type) :=
  | Log (l : level) (format : string) (p : option peer)
  | PeerStart (p : peer)
  | PeerStop (p : peer).
Arguments Log {peer} _ _ _.
Arguments PeerStart {peer} _.
Arguments PeerStop {peer} _.

(** What the peer handler can receive in one turn of its [select]. *)
Inductive peer_event (peer : Type) :=
  | SigPeerValue
  | SigPeerClosed
  | PeerNew (p : peer)
  | PeerDone (p : peer).
Arguments SigPeerValue {peer}.
Arguments SigPeerClosed {peer}.
Arguments PeerNew {peer} _.
Arguments PeerDone {peer} _.

(** What [addPeer] does: log lines, and calls on the repository and on the
    peer constructor, in program order. *)
Inductive dial_level := DialNotice | DialError | DialInfo.

Inductive dial_effect :=
  | DialLog (l : dial_level) (format : string)
  | RepoGet
  | NewOutgoingPeer (a : TCPAddr)
  | RepoAttempt (a : TCPAddr).

(** What [listener.AcceptTCP()] returns: a connection and an error, one of
    them nil. *)
Record accepted := mkAccepted {
  acceptedConn : option nat;
  acceptedErr : option string
}.

Inductive listen_level := ListenDebug | ListenWarning | ListenError.

Inductive listen_effect :=
  | ListenLog (l : listen_level) (format : string)
  | NewIncomingPeer (conn : option nat).

(** How a handler ends: it returns, it panics, or it stays blocked. *)
Inductive ending := Returned | Panicked | Blocked.

Section WithPeer.

(** type peer, declared elsewhere in the package; it implements the
    interface adaptor.Peer, of which the manager uses String, Start and
    Stop. *)
Variable peer : Type.
Context `{!Stringer peer}.
(** const maxPeerCount, declared elsewhere in the package. *)
Variable maxPeerCount : Z.

Abbreviation peers := (gmap string peer).

(** func (mgr *Manager) processNewPeer(peer *peer) *)
Definition processNewPeer (peerIndex : peers) (p : peer)
  : peers * list (effect peer) :=
  match peerIndex !! String_ p with
  | Some _ =>
      (peerIndex,
       [Log Warning "Trying to add existing peer to index %v" (Some p)])
  | None =>
      if Z.of_nat (size peerIndex) >=? maxPeerCount
      then (peerIndex,
            [Log Notice "Maximum peer number reached, discarding peer %v"
                 (Some p)])
      else (<[String_ p := p]> peerIndex,
            [Log Debug "Starting new peer %v" (Some p); PeerStart p])
  end.

(** func (mgr *Manager) processDonePeer(peer *peer) *)
Definition processDonePeer (peerIndex : peers) (p : peer)
  : peers * list (effect peer) :=
  match peerIndex !! String_ p with
  | None =>
      (peerIndex, [Log Notice "Done peer already removed from peer index" None])
  | Some _ =>
      (delete (String_ p) peerIndex,
       [Log Debug "Removing done peer from peer index" None])
  end.

(** The first loop of [Manager.Stop]: [peer.Stop()] on every indexed peer,
    in the order the runtime ranges over the index. *)
Definition stopPeers (order : list (string * peer)) : list (effect peer) :=
  Log Debug "Stopping peers" None :: ((λ kp, PeerStop kp.2) <$> order).

(** func (mgr *Manager) handlePeers(): the index and the effects when the
    handler has left its loop ([true]) or is blocked in its [select] because
    the events have run out ([false]). *)
Fixpoint PeerLoop (peerIndex : peers) (events : list (peer_event peer))
  : peers * list (effect peer) * bool :=
  match events with
  | [] => (peerIndex, [], false)
  | SigPeerValue :: rest => PeerLoop peerIndex rest
  | SigPeerClosed :: _ =>
      (peerIndex, [Log Debug "Peer handler stopping" None], true)
  | PeerNew p :: rest =>
      let '(peerIndex, effects) := processNewPeer peerIndex p in
      let '(peerIndex, effects', stopped) := PeerLoop peerIndex rest in
      (peerIndex,
       Log Debug "Peer handler processing new peer" None
         :: effects ++ effects',
       stopped)
  | PeerDone p :: rest =>
      let '(peerIndex, effects) := processDonePeer peerIndex p in
      let '(peerIndex, effects', stopped) := PeerLoop peerIndex rest in
      (peerIndex,
       Log Debug "Peer handler processing done peer" None
         :: effects ++ effects',
       stopped)
  end.

Definition handlePeers (peerIndex : peers) (events : list (peer_event peer))
  : peers * list (effect peer) * bool :=
  let '(peerIndex, effects, stopped) := PeerLoop peerIndex events in
  (peerIndex,
   Log Debug "Peer handler starting" None
     :: effects
     ++ (if stopped then [Log Debug "Peer handler stopped" None] else []),
   stopped).

(** const maxAddrAttempts, declared elsewhere in the package. *)
Variable maxAddrAttempts : Z.
Context `{!Stringer TCPAddr}.

(** The loop of [addPeer] with [remaining] tries still allowed.  [get] is what
    the repository answers to each call of [Get], counted from [calls];
    [dialFails] tells for which addresses the peer constructor fails. *)
Fixpoint addPeer_tries (peerIndex : peers)
    (get : nat → TCPAddr + string) (dialFails : TCPAddr → bool)
    (remaining calls : nat) : list dial_effect :=
  match remaining with
  | O =>
      (* if we tried too many times, give up for this time *)
      [DialLog DialNotice "Could not find good address"]
  | S remaining =>
      (* try to get the best address from the repository *)
      RepoGet ::
      match get calls with
      | inr _ =>
          [DialLog DialNotice "Repository could not return address: %v"]
      | inl a =>
          (* check if the address in still unused *)
          match peerIndex !! String_ a with
          | Some _ =>
              DialLog DialNotice "Already connected to %v"
                :: addPeer_tries peerIndex get dialFails remaining (S calls)
          | None =>
              NewOutgoingPeer a ::
              if dialFails a
              then [DialLog DialError "Could not create peer for %v"]
              else [DialLog DialInfo "Initializing new peer for %v";
                    RepoAttempt a]
          end
      end
  end.

(** func (mgr *Manager) addPeer(): [tries] runs from 1 to
    maxAddrAttempts. *)
Definition addPeer (peerIndex : peers) (get : nat → TCPAddr + string)
    (dialFails : TCPAddr → bool) : list dial_effect :=
  addPeer_tries peerIndex get dialFails (Z.to_nat maxAddrAttempts) 0.

(** The loop of [handleListener], over what [AcceptTCP] returns call after
    call; [peerFails] tells for which connections [newIncomingPeer] returns
    an error. *)
Fixpoint ListenLoop (peerFails : option nat → bool)
    (accepts : list accepted) : list listen_effect * ending :=
  match accepts with
  | [] => ([], Blocked)
  | a :: rest =>
      (* err.Error(): a panic when err is nil *)
      match acceptedErr a with
      | None => ([], Panicked)
      | Some message =>
          if Contains message "use of closed network connection"
          then ([ListenLog ListenDebug "Listen handler stopping for %v"], Returned)
          else if bool_decide (acceptedErr a ≠ None)
          then ([ListenLog ListenWarning "Could not accept connection: %v"],
                Returned)
          else
            (* create a new incoming peer for the given connection *)
            let '(effects, e) := ListenLoop peerFails rest in
            (NewIncomingPeer (acceptedConn a)
               :: (if peerFails (acceptedConn a)
                   then [ListenLog ListenError "Could not create incoming peer"]
                   else [])
               ++ effects,
             e)
      end
  end.

(** func (mgr *Manager) handleListener(listener *net.TCPListener) *)
Definition handleListener (peerFails : option nat → bool)
    (accepts : list accepted) : list listen_effect * ending :=
  let '(effects, e) := ListenLoop peerFails accepts in
  (ListenLog ListenDebug "Listener handler starting for %v"
     :: effects
     ++ match e with
        | Returned => [ListenLog ListenDebug "Listener handler stopped for %v"]
        | _ => []
        end,
   e).

End WithPeer.

End Manager.

(** ** packages recorder and records *)

(** [bytes.Buffer]: the two ways the records write into one. *)
Definition WriteString (buf s : string) : string := buf +:+ s.

Definition newline : string := String "010"%char "".

(** [binary.Write(buf, binary.LittleEndian, v)] for an integer [v] of
    [n] bytes: the [n] low bytes of [v], least significant first. *)
Fixpoint littleEndian (n : nat) (v : Z) : list Z :=
  match n with
  | O => []
  | S n' => v mod 256 :: littleEndian n' (v / 256)
  end.

(** [func (ip IP) To16() IP] of package net. *)
Definition v4InV6Prefix : list Z := [0; 0; 0; 0; 0; 0; 0; 0; 0; 0; 255; 255].

Definition To16 (ip : IP) : IP :=
  if (length ip =? 4)%nat then v4InV6Prefix ++ ip
  else if (length ip =? 16)%nat then ip
  else [].

Module Recorder.

Section WithEntries.

(** type EntryRecord, its methods String and Bytes, and func ParseCommand
    are declared elsewhere in the package. *)
Variable EntryRecord : Type.
Context `{!Stringer TCPAddr, !Stringer EntryRecord}.
Variable EntryRecord_Bytes : EntryRecord → list Z.
Variable ParseCommand : string → Z.

Record AddressRecord := mkAddressRecord {
  stamp : Time;
  la : TCPAddr;
  ra : TCPAddr;
  cmd : string;
  addrs : list EntryRecord
}.

(** func (ar *AddressRecord) String() string *)
Definition AddressRecord_String (ar : AddressRecord) : string :=
  let buf := "" in
  (* line 1: header + address count *)
  let buf := WriteString buf (cmd ar) in
  let buf := WriteString buf " " in
  let buf := WriteString buf (Format_RFC3339Nano (stamp ar)) in
  let buf := WriteString buf " " in
  let buf := WriteString buf (String_ (ra ar)) in
  let buf := WriteString buf " " in
  let buf := WriteString buf (String_ (la ar)) in
  let buf := WriteString buf " " in
  let buf := WriteString buf (pretty (Z.of_nat (length (addrs ar)))) in
  (* line 2 - (n+1): address information *)
  foldl (λ buf a,
           let buf := WriteString buf newline in
           let buf := WriteString buf " " in
           WriteString buf (String_ a))
        buf (addrs ar).

(** func (ar *AddressRecord) Bytes() []byte *)
Definition AddressRecord_Bytes (ar : AddressRecord) : list Z :=
  let buf := [] in
  (* header *)
  let buf := buf ++ littleEndian 8 (UnixNano (stamp ar)) in
  let buf := buf ++ To16 (addrIP (ra ar)) in
  let buf := buf ++ littleEndian 2 (addrPort (ra ar) mod 2 ^ 16) in
  let buf := buf ++ To16 (addrIP (la ar)) in
  let buf := buf ++ littleEndian 2 (addrPort (la ar) mod 2 ^ 16) in
  let buf := buf ++ littleEndian 1 (ParseCommand (cmd ar)) in
  let buf := buf ++ littleEndian 2 (Z.of_nat (length (addrs ar)) mod 2 ^ 16) in
  foldl (λ buf a, buf ++ EntryRecord_Bytes a) buf (addrs ar).

End WithEntries.

End Recorder.

Module Records.

(** The embedded struct Record, with the fields [NewVerAckRecord] sets. *)
Record Record_ := mkRecord {
  stamp : Time;
  ra : TCPAddr;
  la : TCPAddr;
  cmd : string
}.

Record VerAckRecord := mkVerAckRecord { Record__ : Record_ }.

Section WithDelimiter.

Context `{!Stringer TCPAddr}.
(** const Delimiter1, declared elsewhere in the package. *)
Variable Delimiter1 : string.

(** func (vr *VerAckRecord) String() string *)
Definition VerAckRecord_String (vr : VerAckRecord) : string :=
  let buf := "" in
  let buf := WriteString buf (Format_RFC3339Nano (stamp (Record__ vr))) in
  let buf := WriteString buf Delimiter1 in
  let buf := WriteString buf (cmd (Record__ vr)) in
  let buf := WriteString buf Delimiter1 in
  let buf := WriteString buf (String_ (ra (Record__ vr))) in
  let buf := WriteString buf Delimiter1 in
  let buf := WriteString buf (String_ (la (Record__ vr))) in
  buf.

End WithDelimiter.

End Records.

(** ** package writer *)

Module Writer.

Definition Version : string := "PBTC Log Version 1".

(** How a call ends: it returns, it panics, or it never returns. *)
Inductive outcome (A : Type) :=
  | Returns (a : A)
  | Panics
  | Blocks.
Arguments Returns {A} _.
Arguments Panics {A}.
Arguments Blocks {A}.

(** An [*os.File]: the name it was created under, and whether it has been
    closed. *)
Record File := mkFile { fileName : string; fileClosed : bool }.

(** type FileWriter.  [sigWriter] is the channel of that name, which is
    only ever closed: [true] once it is.  [wg] is the counter of the wait
    group.  The lines travelling through [txtQ] and the ticks of
    [fileTimer] are the events the writer goroutine receives, see
    [received]; the collaborators [comp] and [log] appear through the calls
    made on them. *)
Record FileWriter := mkFileWriter {
  filePath : string;
  fileSize : Z;
  fileAge : Z;
  file : option File;
  sigWriter : bool;
  wg : Z;
  done : Z
}.

Definition with_file (w : FileWriter) (f : option File) : FileWriter :=
  {| filePath := filePath w; fileSize := fileSize w; fileAge := fileAge w;
     file := f; sigWriter := sigWriter w; wg := wg w; done := done w |}.

Definition with_sigWriter (w : FileWriter) (c : bool) : FileWriter :=
  {| filePath := filePath w; fileSize := fileSize w; fileAge := fileAge w;
     file := file w; sigWriter := c; wg := wg w; done := done w |}.

Definition with_wg (w : FileWriter) (n : Z) : FileWriter :=
  {| filePath := filePath w; fileSize := fileSize w; fileAge := fileAge w;
     file := file w; sigWriter := sigWriter w; wg := n; done := done w |}.

Definition with_done (w : FileWriter) (d : Z) : FileWriter :=
  {| filePath := filePath w; fileSize := fileSize w; fileAge := fileAge w;
     file := file w; sigWriter := sigWriter w; wg := wg w; done := d |}.

(** The options of [NewFileWriter]. *)
Definition SetFilePath (path : string) : FileWriter → FileWriter :=
  λ w, {| filePath := path; fileSize := fileSize w; fileAge := fileAge w;
          file := file w; sigWriter := sigWriter w; wg := wg w;
          done := done w |}.

Definition SetSizeLimit (size : Z) : FileWriter → FileWriter :=
  λ w, {| filePath := filePath w; fileSize := size; fileAge := fileAge w;
          file := file w; sigWriter := sigWriter w; wg := wg w;
          done := done w |}.

Definition SetAgeLimit (age : Z) : FileWriter → FileWriter :=
  λ w, {| filePath := filePath w; fileSize := fileSize w; fileAge := age;
          file := file w; sigWriter := sigWriter w; wg := wg w;
          done := done w |}.

(** What the operating system and the collaborators answer during one
    handler turn: the clock, and which of the calls fail. *)
Record Sys := mkSys {
  now : Time;
  createFails : bool;      (* os.Create of the new log file *)
  headerFails : bool;      (* file.WriteString of the version line *)
  seekFails : bool;        (* w.file.Seek(0, 0) *)
  outputFails : bool;      (* os.Create of the compressed file *)
  getWriterFails : bool;   (* w.comp.GetWriter(output) *)
  copyFails : bool;        (* io.Copy(writer, w.file) *)
  closeFails : bool;       (* w.file.Close() *)
  writeFails : bool;       (* w.file.WriteString(txt + "\n") *)
  statSize : option Z      (* w.file.Stat(): the size, or an error *)
}.

Inductive level := Warning | Error | Critical.

(** The calls the writer makes on the outside world, in program order. *)
Inductive call :=
  | OsStat (path : string)
  | OsMkdirAll (path : string)
  | OsCreate (name : string)
  | FileWriteString (f : option File) (s : string)
  | FileSeek (f : File)
  | FileStat (f : option File)
  | FileClose (f : option File)
  | CompGetWriter (output : string)
  | IoCopy (output : string) (f : File)
  | TimerNew (d : Z)
  | TimerReset (d : Z)
  | LogLine (l : level) (format : string).

(** func (w *FileWriter) compressLog(), for [w.file] = [old]. *)
Definition compressLog (sys : Sys) (old : File) : list call :=
  FileSeek old ::
  if seekFails sys
  then [LogLine Warning "[REC] Failed to seek output file (%v)"]
  else
    OsCreate (fileName old +:+ ".out") ::
    if outputFails sys
    then [LogLine Critical "[REC] Failed to create output file (%v)"]
    else
      CompGetWriter (fileName old +:+ ".out") ::
      if getWriterFails sys
      then [LogLine Error "[REC] Failed to create output writer (%v)"]
      else
        IoCopy (fileName old +:+ ".out") old ::
        if copyFails sys
        then [LogLine Error "[REC] Failed to compress log file (%v)"]
        else [].

(** func (w *FileWriter) rotateLog() *)
Definition rotateLog (sys : Sys) (w : FileWriter) : FileWriter * list call :=
  let name := filePath w +:+ Format_RFC3339 (now sys) +:+ ".txt" in
  let new := {| fileName := name; fileClosed := false |} in
  if createFails sys then (w, [OsCreate name])
  else
    let header := FileWriteString (Some new) ("#" +:+ Version +:+ newline) in
    if headerFails sys then (w, [OsCreate name; header])
    else
      let rotated :=
        match file w with
        | Some old =>
            compressLog sys old ++
            FileClose (Some old) ::
            (if closeFails sys
             then [LogLine Warning "[REC] Could not close file on rotate (%v)"]
             else [])
        | None => []
        end in
      (with_file w (Some new), OsCreate name :: header :: rotated).

(** func (w *FileWriter) checkTime() *)
Definition checkTime (sys : Sys) (w : FileWriter) : FileWriter * list call :=
  if fileAge w =? 0 then (w, [])
  else
    let '(w, calls) := rotateLog sys w in
    (w, calls ++ [TimerReset (fileAge w)]).

(** func (w *FileWriter) checkSize() *)
Definition checkSize (sys : Sys) (w : FileWriter)
  : outcome (FileWriter * list call) :=
  if fileSize w =? 0 then Returns (w, [])
  else
    match file w, statSize sys with
    | Some _, Some size =>
        if size <? fileSize w then Returns (w, [FileStat (file w)])
        else
          let '(w', calls) := rotateLog sys w in
          Returns (w', FileStat (file w) :: calls)
    | _, _ => Panics
    end.

(** What one turn of the select loop of [goWriter] receives, other than
    the closing of [sigWriter]. *)
Inductive received :=
  | Tick                     (* <-w.fileTimer.C *)
  | Txt (txt : string).      (* txt := <-w.txtQ *)

(** The select loop of [goWriter].  The goroutine handles the turns in
    [sched], each with the answers of the outside world for that turn, and
    then selects [sigWriter]: if that channel is closed it breaks out of
    the loop, otherwise it stays blocked in the select. *)
Fixpoint WriteLoop (sched : list (received * Sys)) (w : FileWriter)
  : outcome (FileWriter * list call) :=
  match sched with
  | [] => if sigWriter w then Returns (w, []) else Blocks
  | (Tick, sys) :: rest =>
      let '(w', calls) := checkTime sys w in
      match WriteLoop rest w' with
      | Returns (w'', calls') => Returns (w'', calls ++ calls')
      | o => o
      end
  | (Txt txt, sys) :: rest =>
      let write :=
        FileWriteString (file w) (txt +:+ newline) ::
        (if writeFails sys || bool_decide (file w = None)
         then [LogLine Error "[REC] Could not write txt file (%v)"]
         else []) in
      match checkSize sys w with
      | Returns (w', calls) =>
          match WriteLoop rest w' with
          | Returns (w'', calls') => Returns (w'', write ++ calls ++ calls')
          | o => o
          end
      | o => o
      end
  end.

(** func (w *FileWriter) goWriter(), with its deferred [w.wg.Done()]. *)
Definition goWriter (sched : list (received * Sys)) (w : FileWriter)
  : outcome (FileWriter * list call) :=
  match WriteLoop sched w with
  | Returns (w', calls) =>
      let closed :=
        match file w' with
        | Some f => Some {| fileName := fileName f; fileClosed := true |}
        | None => None
        end in
      if wg w' <=? 0 then Panics
      else Returns (with_wg (with_file w' closed) (wg w' - 1),
                    calls ++ [FileClose (file w')])
  | o => o
  end.

(** func (w *FileWriter) Stop().  [sched] is what the writer goroutine
    still handles before it notices that [sigWriter] is closed. *)
Definition Stop (sched : list (received * Sys)) (w : FileWriter)
  : outcome (FileWriter * list call) :=
  (* atomic.SwapUint32(&w.done, 1) == 1 *)
  let old := done w in
  let w := with_done w 1 in
  if old =? 1 then Returns (w, [])
  else
    (* close(w.sigWriter) *)
    if sigWriter w then Panics
    else
      let w := with_sigWriter w true in
      (* w.wg.Wait() *)
      if wg w =? 0 then Returns (w, [])
      else
        match goWriter sched w with
        | Returns (w', calls) =>
            if wg w' =? 0 then Returns (w', calls) else Blocks
        | o => o
        end.

(** func NewFileWriter(options ...): the writer with its
    goroutine started, or [None] for the error return. *)
Definition NewFileWriter (options : list (FileWriter → FileWriter))
    (statFails mkdirFails : bool) (sys : Sys)
  : option (FileWriter * list call) :=
  let w := {| filePath := "logs/"; fileSize := 1 * 1024 * 1024;
              fileAge := 1 * 60 * 60000000000; file := None;
              sigWriter := false; wg := 0; done := 0 |} in
  let w := foldl (λ w option, option w) w options in
  if statFails && mkdirFails then None
  else
    let made :=
      OsStat (filePath w) ::
      (if statFails then [OsMkdirAll (filePath w)] else []) in
    let '(w, calls) := rotateLog sys w in
    (* w.startup(): w.wg.Add(1); go w.goWriter() *)
    Some (with_wg w (wg w + 1), made ++ calls ++ [TimerNew (fileAge w)]).

End Writer.

(** ** Derived notions and worked inputs *)

(** Two endpoints and the way package net prints them, for the worked
    cases below: a four-byte address without zone is printed as dotted
    decimal, a colon and the port. *)
Definition dotted (a : TCPAddr) : string :=
  String.concat "." (pretty <$> addrIP a) +:+ ":" +:+ pretty (addrPort a).

Definition peerA : TCPAddr :=
  {| addrIP := [1; 2; 3; 4]; addrPort := 8333; addrZone := "" |}.
Definition peerB : TCPAddr :=
  {| addrIP := [5; 6; 7; 8]; addrPort := 8333; addrZone := "" |}.
Definition seedSrc : TCPAddr :=
  {| addrIP := [0; 0; 0; 0]; addrPort := 0; addrZone := "" |}.

Definition nodeA : Repository.node := Repository.newNode peerA seedSrc.
Definition nodeB : Repository.node := Repository.newNode peerB seedSrc.

(** The addresses a node file brings. *)
Definition file_keys (f : Repository.nodesFile) : gset string :=
  match f with
  | Repository.NoFile => ∅
  | Repository.GobStream entries _ => list_to_set entries.*1
  end.

Section RepositoryRuns.

Import Repository.
Context `{!Stringer TCPAddr}.
Variable maxNodeCount : Z.

(** The life of a repository and its node file, when nobody but the
    repository writes that file: the handler takes a turn, a peer or the
    manager reports on an address, the index is saved (entirely, or in part
    when the save breaks off), the repository is started again in the same
    process, or a new process starts on the file that is there. *)
Inductive repo_step : index * nodesFile → index * nodesFile → Prop :=
  | step_turn nodeIndex f e :
      repo_step (nodeIndex, f)
                ((handleNodes_turn maxNodeCount nodeIndex e).1, f)
  | step_Update nodeIndex f a s :
      repo_step (nodeIndex, f) ((Update nodeIndex a s).1, f)
  | step_Attempt nodeIndex f now a :
      repo_step (nodeIndex, f) (Attempt now nodeIndex a, f)
  | step_Connected nodeIndex f now a :
      repo_step (nodeIndex, f) (Connected now nodeIndex a, f)
  | step_Good nodeIndex f now a :
      repo_step (nodeIndex, f) (Good now nodeIndex a, f)
  | step_save nodeIndex f entries complete :
      entries ⊆ map_to_list nodeIndex →
      repo_step (nodeIndex, f) (nodeIndex, GobStream entries complete)
  | step_restart nodeIndex f :
      repo_step (nodeIndex, f) (restore nodeIndex f, f)
  | step_new_process nodeIndex f :
      repo_step (nodeIndex, f) (restore ∅ f, f).

(** A new repository has an empty index, and there is no node file yet. *)
Definition repo_reachable (w : index * nodesFile) : Prop :=
  rtc repo_step (∅, NoFile) w.

(** What every step of a repository run preserves: the index is within
    the limit and the node file brings no address the index does not have. *)
Definition within_limit (w : index * nodesFile) : Prop :=
  Z.of_nat (size w.1) ≤ maxNodeCount ∧ file_keys w.2 ⊆ dom w.1.

End RepositoryRuns.

(** A sequence of file operations replaces the contents of [name] by [new]
    atomically when, interrupted after any number of its operations, it
    leaves under [name] either what was there before or all of [new]. *)
Definition crash_atomic (ops : list Repository.fsop) (d : Repository.disk)
    (name : string) (new : list Z) : Prop :=
  ∀ k, Repository.fs_run d (take k ops) !! name = d !! name
       ∨ Repository.fs_run d (take k ops) !! name = Some new.

(** A peer for the worked cases: a connection number and the remote
    endpoint, printed as the endpoint. *)
Record conn := mkConn { connId : nat; connRemote : TCPAddr }.

Definition conn_String : Stringer conn := λ c, dotted (connRemote c).

(** The lines that follow the header line of an address record. *)
Definition entry_lines {A} `{!Stringer A} (l : list A) : string :=
  foldl (λ buf a, buf +:+ newline +:+ " " +:+ String_ a) "" l.

(** Modelled from the spec: type EntryRecord of package recorder, which is
    declared elsewhere in the package; one entry of an addr message, with
    the fields and the 30-byte layout of the Bitcoin addr entry (timestamp,
    service flags, IP, port).  Used for the worked cases only. *)
Record entry := mkEntry {
  entryStamp : Z;
  entryServices : Z;
  entryIP : IP;
  entryPort : Z
}.

Definition entry_String : Stringer entry :=
  λ e, dotted {| addrIP := entryIP e; addrPort := entryPort e;
                 addrZone := "" |}.

Definition entry_Bytes (e : entry) : list Z :=
  littleEndian 4 (entryStamp e) ++ littleEndian 8 (entryServices e)
    ++ To16 (entryIP e) ++ reverse (littleEndian 2 (entryPort e)).

Definition noon : Time :=
  {| UnixNano := 1433160000000000001;
     Format_RFC3339Nano := "2015-06-01T12:00:00.000000001Z";
     Format_RFC3339 := "2015-06-01T12:00:00Z" |}.

Definition twoAddrs : @Recorder.AddressRecord entry :=
  {| Recorder.stamp := noon; Recorder.la := peerB; Recorder.ra := peerA;
     Recorder.cmd := "addr";
     Recorder.addrs :=
       [ {| entryStamp := 1433150000; entryServices := 1;
            entryIP := [9; 9; 9; 9]; entryPort := 8333 |};
         {| entryStamp := 1433140000; entryServices := 1;
            entryIP := [8; 8; 4; 4]; entryPort := 18333 |} ] |}.

Definition oneVerAck : Records.VerAckRecord :=
  {| Records.Record__ :=
       {| Records.stamp := noon; Records.ra := peerA; Records.la := peerB;
          Records.cmd := "verack" |} |}.

Definition quiet : Writer.Sys :=
  {| Writer.now := noon; Writer.createFails := false;
     Writer.headerFails := false; Writer.seekFails := false;
     Writer.outputFails := false; Writer.getWriterFails := false;
     Writer.copyFails := false; Writer.closeFails := false;
     Writer.writeFails := false; Writer.statSize := Some 2048 |}.

Definition fivePast : Time :=
  {| UnixNano := 1433160300000000001;
     Format_RFC3339Nano := "2015-06-01T12:05:00.000000001Z";
     Format_RFC3339 := "2015-06-01T12:05:00Z" |}.

Definition quietLater : Writer.Sys :=
  {| Writer.now := fivePast; Writer.createFails := false;
     Writer.headerFails := false; Writer.seekFails := false;
     Writer.outputFails := false; Writer.getWriterFails := false;
     Writer.copyFails := false; Writer.closeFails := false;
     Writer.writeFails := false; Writer.statSize := Some 2048 |}.

(** The writer of the second entry point, with both limits at zero: just
    constructed, log file open, goroutine running. *)
Definition unlimited : Writer.FileWriter :=
  {| Writer.filePath := "dumps"; Writer.fileSize := 0; Writer.fileAge := 0;
     Writer.file :=
       Some {| Writer.fileName := "dumps2015-06-01T12:00:00Z.txt";
               Writer.fileClosed := false |};
     Writer.sigWriter := false; Writer.wg := 1; Writer.done := 0 |}.

(** The fields of the writer that a rotation leaves alone. *)
Definition same_control (w w' : Writer.FileWriter) : Prop :=
  Writer.sigWriter w' = Writer.sigWriter w
  ∧ Writer.wg w' = Writer.wg w
  ∧ Writer.done w' = Writer.done w.

Section BootstrapNotions.

Import Repository.
Context `{!Stringer TCPAddr, !Stringer IP}.
Variable protocolNetwork : Z.
Variable LookupIP : string → list IP + string.
Variable ResolveTCPAddr : string → TCPAddr + string.

(** What [bootstrap] may send: a fresh node for an address that is not in
    the index, resolved from an IP that one of the seeds answered, with the
    default port of the network, and with the zero address as its source. *)
Definition bootstrapped (nodeIndex : index) (n : node) : Prop :=
  nodeIndex !! String_ (addr n) = None
  ∧ n = newNode (addr n) (local (addr n))
  ∧ ∃ seed ips ip,
      seed ∈ seeds ∧ LookupIP seed = inl ips ∧ ip ∈ ips
      ∧ ResolveTCPAddr
          (JoinHostPort (String_ ip)
             (pretty (Util.GetDefaultPort protocolNetwork)))
        = inl (addr n).

(** What every step of [bootstrap] preserves. *)
Definition bootstrap_invariant (nodeIndex : index) (nodeQ : list node)
    (st : index * list node * list string) : Prop :=
  st.1.1 = nodeIndex
  ∧ ∃ sent, st.1.2 = nodeQ ++ sent ∧ Forall (bootstrapped nodeIndex) sent.

End BootstrapNotions.

(** Every peer of the index is filed under its own address. *)
Definition keyed {peer} `{!Stringer peer} (peerIndex : gmap string peer)
  : Prop :=
  ∀ k p, peerIndex !! k = Some p → String_ p = k.

(** The calls of [addPeer] on the repository's [Get] and on the peer
    constructor. *)
Definition is_get (e : Manager.dial_effect) : bool :=
  match e with Manager.RepoGet => true | _ => false end.

Definition is_dial (e : Manager.dial_effect) : bool :=
  match e with Manager.NewOutgoingPeer _ => true | _ => false end.

(** An address the program can read an IP from. *)
Definition carries (addr : Addr) (ip : IP) : Prop :=
  (∃ mask, addr = IPNet ip mask) ∨ (∃ zone, addr = IPAddr ip zone).

(** An interface the program looks into: up, not a loopback interface, and
    answering with its addresses. *)
Definition usable (iface : Interface) (addrs : list Addr) : Prop :=
  Z.land (Flags iface) FlagUp ≠ 0
  ∧ Z.land (Flags iface) FlagLoopback = 0
  ∧ Addrs iface = inl addrs.

(** Reading a little-endian integer back from its bytes. *)
Definition fromLittleEndian (bytes : list Z) : Z :=
  foldr (λ b rest, b + 256 * rest) 0 bytes.



(** Further worked inputs: a resolver that knows one seed with one IP, the
    way package net prints a four-byte IP, and an outside world in which no
    file can be created. *)
Definition IP_dotted : Stringer IP :=
  λ ip, String.concat "." (pretty <$> ip).

Definition oneSeed : string → list IP + string :=
  λ seed, if String.eqb seed "testnet-seed.bluematt.me"
          then inl [[1; 2; 3; 4]]
          else inr "no such host".

Definition resolveLiteral : string → TCPAddr + string :=
  λ hostport, if String.eqb hostport "1.2.3.4:18333"
              then inl {| addrIP := [1; 2; 3; 4]; addrPort := 18333;
                          addrZone := "" |}
              else inr "missing port in address".


Definition noRemoteIP : @Recorder.AddressRecord entry :=
  {| Recorder.stamp := noon; Recorder.la := peerB;
     Recorder.ra := {| addrIP := []; addrPort := 8333; addrZone := "" |};
     Recorder.cmd := "addr";
     Recorder.addrs := Recorder.addrs entry twoAddrs |}.

(** * Properties *)

(** ** MinUint32 *)

(** C7: for all x and y, [MinUint32 x y] is the larger of the two. *)
Theorem MinUint32_is_max (x y : Z) :
  Util.MinUint32 x y = Z.max x y.
Proof.
  unfold Util.MinUint32.
  destruct (Z.gtb_spec x y); lia.
Qed.

(** ** The node repository *)

Section RepositoryFacts.

Import Repository.
Context `{!Stringer TCPAddr}.
Variable maxNodeCount : Z.

Implicit Types (nodeIndex : index) (n : node) (e : event).

Lemma handleNodes_turn_size nodeIndex e :
  Z.of_nat (size nodeIndex) ≤ maxNodeCount →
  Z.of_nat (size (handleNodes_turn maxNodeCount nodeIndex e).1) ≤ maxNodeCount.
Proof.
  intros Hle. destruct e as [| |n]; simpl; try done.
  destruct (nodeIndex !! String_ (addr n)) eqn:Hk; simpl; first done.
  destruct (Z.geb_spec (Z.of_nat (size nodeIndex)) maxNodeCount); simpl;
    first done.
  rewrite map_size_insert_None by done. lia.
Qed.

Lemma handleNodes_size nodeIndex events :
  Z.of_nat (size nodeIndex) ≤ maxNodeCount →
  Z.of_nat (size (handleNodes maxNodeCount nodeIndex events).1) ≤ maxNodeCount.
Proof.
  revert nodeIndex. induction events as [|e rest IH]; intros nodeIndex Hle;
    simpl; first done.
  pose proof (handleNodes_turn_size nodeIndex e Hle) as Hturn.
  destruct (handleNodes_turn maxNodeCount nodeIndex e) as [m [| |]]; simpl in *;
    auto.
Qed.

Lemma handleNodes_turn_full nodeIndex n :
  maxNodeCount ≤ Z.of_nat (size nodeIndex) →
  handleNodes_turn maxNodeCount nodeIndex (NodeQ n) = (nodeIndex, Return).
Proof.
  intros Hfull. simpl.
  destruct (nodeIndex !! String_ (addr n)); first done.
  destruct (Z.geb_spec (Z.of_nat (size nodeIndex)) maxNodeCount); [done | lia].
Qed.

Lemma handleNodes_turn_known nodeIndex n :
  is_Some (nodeIndex !! String_ (addr n)) →
  handleNodes_turn maxNodeCount nodeIndex (NodeQ n) = (nodeIndex, Return).
Proof. intros [x Hx]. simpl. by rewrite Hx. Qed.

Lemma handleNodes_app nodeIndex nodeIndex' before after :
  handleNodes maxNodeCount nodeIndex before = (nodeIndex', Continue) →
  handleNodes maxNodeCount nodeIndex (before ++ after)
  = handleNodes maxNodeCount nodeIndex' after.
Proof.
  revert nodeIndex. induction before as [|e rest IH]; intros nodeIndex Hrun;
    simpl in *.
  - by inversion Hrun.
  - destruct (handleNodes_turn maxNodeCount nodeIndex e) as [m [| |]];
      [by apply IH | done | done].
Qed.

Lemma restore_dom nodeIndex entries complete :
  dom (restore nodeIndex (GobStream entries complete))
  = dom nodeIndex ∪ list_to_set entries.*1.
Proof.
  simpl. revert nodeIndex.
  induction entries as [|[k n] rest IH]; intros nodeIndex; simpl.
  - by rewrite (right_id_L ∅ (∪)).
  - rewrite IH, dom_insert_L.
    rewrite (comm_L (∪) {[k]} (dom nodeIndex)).
    by rewrite (assoc_L (∪)).
Qed.

Lemma restore_lookup_other nodeIndex entries complete k :
  k ∉ entries.*1 →
  restore nodeIndex (GobStream entries complete) !! k = nodeIndex !! k.
Proof.
  simpl. revert nodeIndex.
  induction entries as [|[k' n'] rest IH]; intros nodeIndex Hk; simpl in *;
    first done.
  apply not_elem_of_cons in Hk as [Hne Hrest].
  rewrite IH by done. by rewrite lookup_insert_ne.
Qed.

Lemma restore_lookup_entry nodeIndex entries complete k n :
  NoDup entries.*1 →
  (k, n) ∈ entries →
  restore nodeIndex (GobStream entries complete) !! k = Some n.
Proof.
  revert nodeIndex.
  induction entries as [|[k' n'] rest IH]; intros nodeIndex Hnodup Hin.
  - by apply elem_of_nil in Hin.
  - rewrite fmap_cons in Hnodup. apply NoDup_cons in Hnodup as [Hfresh Hnodup].
    apply elem_of_cons in Hin as [[= -> ->]|Hin].
    + change (restore (<[k' := n']> nodeIndex) (GobStream rest complete) !! k'
              = Some n').
      rewrite restore_lookup_other by done. by rewrite lookup_insert_eq.
    + by apply (IH (<[k' := n']> nodeIndex)).
Qed.

Lemma restore_saved nodeIndex saved entries complete :
  entries ≡ₚ map_to_list saved →
  nodeIndex = ∅ ∨ nodeIndex = saved →
  restore nodeIndex (GobStream entries complete) = saved.
Proof.
  intros Hperm Hstart. apply map_eq. intros k.
  destruct (saved !! k) as [n|] eqn:Hk.
  - apply restore_lookup_entry.
    + rewrite Hperm. apply NoDup_fst_map_to_list.
    + rewrite Hperm. by apply elem_of_map_to_list.
  - rewrite restore_lookup_other.
    + destruct Hstart as [-> | ->]; [apply lookup_empty | done].
    + intros Hin. apply list_elem_of_fmap in Hin as ([k' n] & -> & Hin).
      rewrite Hperm in Hin. apply elem_of_map_to_list in Hin.
      simpl in *. congruence.
Qed.

Lemma restore_known nodeIndex entries complete :
  list_to_set entries.*1 ⊆ dom nodeIndex →
  size (restore nodeIndex (GobStream entries complete)) = size nodeIndex.
Proof.
  intros Hknown.
  assert (dom (restore nodeIndex (GobStream entries complete))
          = dom nodeIndex) as Hdom.
  { rewrite restore_dom, (comm_L (∪)). by apply subseteq_union_1_L. }
  apply (f_equal size) in Hdom. by rewrite !size_dom in Hdom.
Qed.

Lemma restore_file_keys nodeIndex f :
  dom (restore nodeIndex f) = dom nodeIndex ∪ file_keys f.
Proof.
  destruct f as [|entries complete]; last apply restore_dom.
  simpl. by rewrite (right_id_L ∅ (∪)).
Qed.

Lemma handleNodes_turn_keys nodeIndex e :
  dom nodeIndex ⊆ dom (handleNodes_turn maxNodeCount nodeIndex e).1.
Proof.
  destruct e as [| |n]; simpl; try done.
  destruct (nodeIndex !! String_ (addr n)); simpl; first done.
  destruct (Z.of_nat (size nodeIndex) >=? maxNodeCount); simpl; first done.
  rewrite dom_insert_L. apply union_subseteq_r.
Qed.

(** The bookkeeping operations change nodes in place: the addresses in
    the index stay the same. *)
Lemma bookkeeping_keeps_keys now nodeIndex a s :
  dom (Update nodeIndex a s).1 = dom nodeIndex
  ∧ dom (Attempt now nodeIndex a) = dom nodeIndex
  ∧ dom (Connected now nodeIndex a) = dom nodeIndex
  ∧ dom (Good now nodeIndex a) = dom nodeIndex.
Proof.
  unfold Update, Attempt, Connected, Good.
  destruct (nodeIndex !! String_ a) as [n|] eqn:Hk; simpl; last done.
  assert (String_ a ∈ dom nodeIndex) as Hin by (apply elem_of_dom; eauto).
  rewrite !dom_insert_L.
  assert ({[String_ a]} ∪ dom nodeIndex = dom nodeIndex) as ->; last done.
  apply subseteq_union_1_L. by apply singleton_subseteq_l.
Qed.

Lemma same_keys_within_limit nodeIndex nodeIndex' f :
  dom nodeIndex' = dom nodeIndex →
  within_limit maxNodeCount (nodeIndex, f) →
  within_limit maxNodeCount (nodeIndex', f).
Proof.
  intros Hdom [Hsize Hfile]. unfold within_limit in *. simpl in *.
  rewrite Hdom. split; last done.
  apply (f_equal size) in Hdom. rewrite !size_dom in Hdom. by rewrite Hdom.
Qed.

Lemma repo_step_within_limit w w' :
  repo_step maxNodeCount w w' →
  within_limit maxNodeCount w → within_limit maxNodeCount w'.
Proof.
  intros Hstep. destruct Hstep as
    [nodeIndex f e | nodeIndex f a s | nodeIndex f now a | nodeIndex f now a
    | nodeIndex f now a | nodeIndex f entries complete Hentries
    | nodeIndex f | nodeIndex f].
  - intros [Hsize Hfile]. split; simpl in *.
    + by apply handleNodes_turn_size.
    + etrans; [done | apply handleNodes_turn_keys].
  - apply same_keys_within_limit.
    apply (bookkeeping_keeps_keys (mkTime 0 "" "") nodeIndex a s).
  - apply same_keys_within_limit.
    apply (proj1 (proj2 (bookkeeping_keeps_keys now nodeIndex a a))).
  - apply same_keys_within_limit.
    apply (proj1 (proj2 (proj2 (bookkeeping_keeps_keys now nodeIndex a a)))).
  - apply same_keys_within_limit.
    apply (proj2 (proj2 (proj2 (bookkeeping_keeps_keys now nodeIndex a a)))).
  - intros [Hsize _]. split; simpl in *; first done.
    intros k Hk. apply elem_of_list_to_set, list_elem_of_fmap in Hk
      as ([k' n] & -> & Hin).
    apply Hentries, elem_of_map_to_list in Hin. apply elem_of_dom. eauto.
  - intros Hw. apply (same_keys_within_limit nodeIndex); last done.
    destruct Hw as [_ Hfile]. simpl in *.
    rewrite restore_file_keys, (comm_L (∪)). by apply subseteq_union_1_L.
  - intros [Hsize Hfile]. simpl in *.
    assert (dom (restore ∅ f) = file_keys f) as Hdom.
    { by rewrite restore_file_keys, dom_empty_L, (left_id_L ∅ (∪)). }
    split; simpl.
    + pose proof (subseteq_size _ _ Hfile) as Hle.
      rewrite <- Hdom, !size_dom in Hle. lia.
    + by rewrite Hdom.
Qed.

Lemma repo_reachable_within_limit w :
  0 ≤ maxNodeCount →
  repo_reachable maxNodeCount w → within_limit maxNodeCount w.
Proof.
  intros Hmax Hrun. unfold repo_reachable in Hrun.
  apply (rtc_ind_r (R := repo_step maxNodeCount)
           (within_limit maxNodeCount) (∅, NoFile)); last done.
  - split; simpl; [by rewrite map_size_empty | done].
  - intros v v' _ Hstep Hv. by eapply repo_step_within_limit.
Qed.

End RepositoryFacts.

Section RepositoryClaims.

Import Repository.
Context `{!Stringer TCPAddr}.
Variable maxNodeCount : Z.

Implicit Types (nodeIndex : index) (n : node) (e : event).

(** C1, as amended: in every state the repository reaches from an empty
    index, as long as nobody but the repository writes the node file, the
    index is within the limit.  The node handler keeps the index within the
    limit whatever arrives on its channels, and a node that arrives while
    the index is at the limit is dropped.  Restoring from disk checks no
    limit: the index afterwards holds the keys it had and every key of the
    file; read into an empty index, a file with the entries of a saved index
    gives back that index. *)
Theorem nodeIndex_limit :
  (0 ≤ maxNodeCount →
   ∀ w, repo_reachable maxNodeCount w →
        Z.of_nat (size w.1) ≤ maxNodeCount)
  ∧ (∀ nodeIndex events,
       Z.of_nat (size nodeIndex) ≤ maxNodeCount →
       Z.of_nat (size (handleNodes maxNodeCount nodeIndex events).1)
       ≤ maxNodeCount)
  ∧ (∀ nodeIndex n,
       maxNodeCount ≤ Z.of_nat (size nodeIndex) →
       (handleNodes_turn maxNodeCount nodeIndex (NodeQ n)).1 = nodeIndex)
  ∧ (∀ nodeIndex f,
       dom (restore nodeIndex f) = dom nodeIndex ∪ file_keys f)
  ∧ (∀ saved entries complete,
       entries ≡ₚ map_to_list saved →
       restore ∅ (GobStream entries complete) = saved).
Proof.
  split; [|split; [|split; [|split]]].
  - intros Hmax w Hrun.
    by destruct (repo_reachable_within_limit maxNodeCount w Hmax Hrun).
  - apply handleNodes_size.
  - intros nodeIndex n Hfull. by rewrite handleNodes_turn_full.
  - apply restore_file_keys.
  - intros saved entries complete Hperm.
    apply restore_saved; auto.
Qed.

(** C9: once the handler dequeues a node whose address is in the index, or
    any node while the index is at the limit, it returns; the index is the
    one it had at that moment, whatever is delivered afterwards. *)
Theorem handleNodes_returns_early nodeIndex nodeIndex' before n after :
  handleNodes maxNodeCount nodeIndex before = (nodeIndex', Continue) →
  is_Some (nodeIndex' !! String_ (addr n))
    ∨ maxNodeCount ≤ Z.of_nat (size nodeIndex') →
  handleNodes maxNodeCount nodeIndex (before ++ NodeQ n :: after)
  = (nodeIndex', Return).
Proof.
  intros Hbefore Hstop.
  rewrite (handleNodes_app _ _ _ _ _ Hbefore).
  cbn [handleNodes].
  destruct Hstop as [Hknown | Hfull].
  - by rewrite handleNodes_turn_known.
  - by rewrite handleNodes_turn_full.
Qed.

End RepositoryClaims.

Section GetFacts.

Import Repository.
Implicit Types (nodeIndex : index) (order : list (string * node)).

Lemma Get_loop_lookup target i order :
  i ≤ target →
  Get_loop target i order
  = (λ kn, addr kn.2) <$> order !! Z.to_nat (target - i).
Proof.
  revert i. induction order as [|[k n] rest IH]; intros i Hle; simpl.
  - done.
  - destruct (Z.eqb_spec i target) as [->|Hne].
    + by rewrite Z.sub_diag.
    + rewrite IH by lia.
      replace (Z.to_nat (target - i)) with (S (Z.to_nat (target - (i + 1))))
        by lia.
      done.
Qed.

Lemma Get_nonempty r nodeIndex order :
  0 ≤ r →
  order ≡ₚ map_to_list nodeIndex →
  nodeIndex ≠ ∅ →
  ∃ k n, nodeIndex !! k = Some n ∧ Get r nodeIndex order = inl (addr n).
Proof.
  intros Hr Hperm Hne.
  assert (size nodeIndex ≠ 0%nat) as Hsize by by apply map_size_non_empty_iff.
  assert (length order = size nodeIndex) as Hlen
    by by rewrite Hperm, length_map_to_list.
  pose proof (Z.rem_bound_pos r (Z.of_nat (size nodeIndex)) Hr) as Hbound.
  unfold Get.
  destruct (Z.eqb_spec (Z.of_nat (size nodeIndex)) 0) as [|_]; first lia.
  rewrite Get_loop_lookup by lia.
  destruct (lookup_lt_is_Some_2 order
              (Z.to_nat (Z.rem r (Z.of_nat (size nodeIndex)) - 0)))
    as [[k n] Hkn]; first lia.
  exists k, n. rewrite Hkn. split; last done.
  apply elem_of_map_to_list. rewrite <- Hperm.
  by eapply list_elem_of_lookup_2.
Qed.

End GetFacts.

(** C5: [Get] returns an error exactly when the index is empty, the error
    then being the one for an empty repository; on any other index it
    returns the address of a node of the index.  [r] is what [rand.Int()]
    returned, which is never negative, and [order] the order in which the
    runtime ranges over the map. *)
Theorem Get_NotFound_iff_empty (r : Z) (nodeIndex : Repository.index)
    (order : list (string * Repository.node)) :
  0 ≤ r →
  order ≡ₚ map_to_list nodeIndex →
  ((∃ err, Repository.Get r nodeIndex order = inr err) ↔ nodeIndex = ∅)
  ∧ (nodeIndex = ∅ →
     Repository.Get r nodeIndex order = inr Repository.ErrNoNodes)
  ∧ (nodeIndex ≠ ∅ →
     ∃ k n, nodeIndex !! k = Some n
            ∧ Repository.Get r nodeIndex order = inl (Repository.addr n)).
Proof.
  intros Hr Hperm.
  assert (nodeIndex = ∅ →
          Repository.Get r nodeIndex order = inr Repository.ErrNoNodes)
    as Hempty.
  { intros ->. unfold Repository.Get. by rewrite map_size_empty. }
  split; [|split].
  - split.
    + intros [err Herr].
      destruct (decide (nodeIndex = ∅)) as [|Hne]; first done.
      destruct (Get_nonempty r nodeIndex order Hr Hperm Hne)
        as (k & n & _ & Hget).
      congruence.
    + intros Hnil. eexists. by apply Hempty.
  - done.
  - by apply Get_nonempty.
Qed.

Lemma Get_NotFound_iff_empty_witness :
  let nodeIndex : Repository.index := {[ "1.2.3.4:8333" := nodeA ]} in
  let order := [("1.2.3.4:8333", nodeA)] in
  Repository.Get 7 nodeIndex order = inl peerA
  ∧ ((∃ err, Repository.Get 7 nodeIndex order = inr err) ↔ nodeIndex = ∅).
Proof.
  intros nodeIndex order.
  assert (0 ≤ 7) as Hr by lia.
  assert (order ≡ₚ map_to_list nodeIndex) as Hperm
    by (subst nodeIndex order; by rewrite map_to_list_singleton).
  split.
  - reflexivity.
  - exact (proj1 (Get_NotFound_iff_empty 7 nodeIndex order Hr Hperm)).
Defined.

Lemma handleNodes_returns_early_witness :
  @Repository.handleNodes dotted 2 ∅
    ([Repository.NodeQ nodeA]
       ++ Repository.NodeQ nodeA :: [Repository.NodeQ nodeB])
  = ({[ "1.2.3.4:8333" := nodeA ]}, Repository.Return).
Proof.
  apply (@handleNodes_returns_early dotted 2 ∅).
  - reflexivity.
  - left. exists nodeA. reflexivity.
Defined.

(** C1 as stated fails on restore: with a limit of one node, an empty index
    and a node file of two entries, the index after [restore] holds two
    nodes. *)
Lemma restore_exceeds_limit :
  let maxNodeCount := 1 in
  let onDisk :=
    Repository.GobStream
      [("1.2.3.4:8333", nodeA); ("5.6.7.8:8333", nodeB)] true in
  Z.of_nat (size (∅ : Repository.index)) ≤ maxNodeCount
  ∧ ¬ Z.of_nat (size (Repository.restore ∅ onDisk)) ≤ maxNodeCount.
Proof.
  split.
  - vm_compute. discriminate.
  - vm_compute. intros Hle. by apply Hle.
Qed.

Lemma nodeIndex_limit_witness :
  Z.of_nat
    (size (@Repository.handleNodes_turn dotted 1 ∅
             (Repository.NodeQ nodeA)).1) ≤ 1.
Proof.
  assert (0 ≤ 1) as Hmax by lia.
  assert (@repo_reachable dotted 1
            ((@Repository.handleNodes_turn dotted 1 ∅
                (Repository.NodeQ nodeA)).1, Repository.NoFile)) as Hrun.
  { apply rtc_once.
    apply (@step_turn dotted 1 ∅ Repository.NoFile (Repository.NodeQ nodeA)). }
  exact (proj1 (@nodeIndex_limit dotted 1) Hmax _ Hrun).
Defined.

(** ** Persistence of the node index *)

Section SaveFacts.

Import Repository.
Implicit Types (d : disk) (chunks : list (list Z)).

Lemma fs_run_writes d name chunks :
  fs_run d (OpWrite name <$> chunks) !! name
  = (λ old, old ++ concat chunks) <$> d !! name.
Proof.
  unfold fs_run. revert d.
  induction chunks as [|c rest IH]; intros d; simpl.
  - destruct (d !! name); simpl; by rewrite ?app_nil_r.
  - rewrite IH, lookup_alter_eq.
    destruct (d !! name); simpl; by rewrite ?app_assoc.
Qed.

Lemma take_save_writes k name chunks d :
  fs_run d (take k ((OpWrite name <$> chunks) ++ [OpClose name])) !! name
  = fs_run d (OpWrite name <$> take k chunks) !! name.
Proof.
  destruct (decide (k ≤ length chunks)%nat) as [Hle|Hgt].
  - rewrite take_app_le by (by rewrite length_fmap).
    by rewrite fmap_take.
  - rewrite take_ge by (rewrite length_app, length_fmap; simpl; lia).
    rewrite (take_ge chunks) by lia.
    unfold fs_run. by rewrite foldl_app.
Qed.

Lemma save_interrupted gobEncode (nodeIndex : index) d k :
  fs_run d (take (S k) (save true gobEncode nodeIndex)) !! "nodes.dat"
  = Some (concat (take k (gobEncode nodeIndex))).
Proof.
  unfold save. rewrite firstn_cons.
  change (fs_run d (?op :: ?ops)) with (fs_run (fs_step d op) ops).
  rewrite take_save_writes, fs_run_writes. simpl.
  by rewrite lookup_insert_eq.
Qed.

End SaveFacts.

(** C2, as amended: [save] works on the live file alone.  Every operation
    it performs is on nodes.dat and none is a rename; it first truncates
    the file and then appends the encoding message by message, so that,
    interrupted, it leaves a prefix of the encoding, and run to its end it
    leaves the whole encoding of the index. *)
Theorem save_in_place (gobEncode : Repository.index → list (list Z))
    (nodeIndex : Repository.index) (d : Repository.disk) :
  (∀ createOk op,
     op ∈ Repository.save createOk gobEncode nodeIndex →
     op = Repository.OpCreate "nodes.dat"
     ∨ (∃ data, op = Repository.OpWrite "nodes.dat" data)
     ∨ op = Repository.OpClose "nodes.dat")
  ∧ (∀ k,
       Repository.fs_run d
         (take (S k) (Repository.save true gobEncode nodeIndex))
         !! "nodes.dat"
       = Some (concat (take k (gobEncode nodeIndex))))
  ∧ Repository.fs_run d (Repository.save true gobEncode nodeIndex)
      !! "nodes.dat"
    = Some (concat (gobEncode nodeIndex)).
Proof.
  split; [|split].
  - intros [|] op Hin; unfold Repository.save in Hin.
    + apply elem_of_cons in Hin as [->|Hin]; first by left.
      apply elem_of_app in Hin as [Hin|Hin].
      * apply list_elem_of_fmap in Hin as (data & -> & _). right; left; eauto.
      * apply list_elem_of_singleton in Hin as ->. by right; right.
    + by apply elem_of_nil in Hin.
  - intros k. apply save_interrupted.
  - pose proof (save_interrupted gobEncode nodeIndex d
                  (length (Repository.save true gobEncode nodeIndex))) as Hall.
    rewrite take_ge in Hall by lia.
    rewrite Hall. f_equal. f_equal. apply take_ge.
    unfold Repository.save. simpl. rewrite length_app, length_fmap. lia.
Qed.

Lemma save_in_place_witness :
  let gobEncode : Repository.index → list (list Z) := λ _, [[1; 2]; [3]] in
  let before : Repository.disk := {[ "nodes.dat" := [9; 9; 9] ]} in
  Repository.OpCreate "nodes.dat" ∈ Repository.save true gobEncode ∅
  ∧ Repository.fs_run before (Repository.save true gobEncode ∅) !! "nodes.dat"
    = Some [1; 2; 3].
Proof.
  intros gobEncode before. split.
  - by left.
  - exact (proj2 (proj2 (save_in_place gobEncode ∅ before))).
Defined.

(** C2 as stated fails: [save] uses no temporary file and never renames,
    and a save interrupted after its first operation leaves the live file
    empty, which is neither its former contents nor the new encoding. *)
Lemma save_not_crash_atomic :
  let gobEncode : Repository.index → list (list Z) := λ _, [[1; 2]; [3]] in
  let before : Repository.disk := {[ "nodes.dat" := [9; 9; 9] ]} in
  let ops := Repository.save true gobEncode ∅ in
  (∀ old new, Repository.OpRename old new ∉ ops)
  ∧ Repository.fs_run before (take 1 ops) !! "nodes.dat" = Some []
  ∧ ¬ crash_atomic ops before "nodes.dat" (concat (gobEncode ∅)).
Proof.
  intros gobEncode before ops. split; [|split].
  - intros old new Hin. subst ops. unfold Repository.save in Hin. simpl in Hin.
    repeat (apply elem_of_cons in Hin as [Heq|Hin]; first discriminate).
    by apply elem_of_nil in Hin.
  - reflexivity.
  - intros Hatomic. destruct (Hatomic 1%nat) as [Hold|Hnew].
    + vm_compute in Hold. discriminate.
    + vm_compute in Hnew. discriminate.
Qed.

(** ** The connection manager *)

Section ManagerClaims.

Import Manager.
Variable peer : Type.
Context `{!Stringer peer}.
Variable maxPeerCount : Z.

Implicit Types (peerIndex : gmap string peer) (p : peer).

(** C4, as amended: a new peer whose address is in the index, or that
    arrives while the index is at the limit, is not added; the manager logs
    the fact and calls neither [Start] nor [Stop] on it.  Any other new
    peer is started and added under its address. *)
Theorem processNewPeer_discards_or_starts peerIndex p :
  (is_Some (peerIndex !! String_ p)
     ∨ maxPeerCount ≤ Z.of_nat (size peerIndex) →
   (processNewPeer peer maxPeerCount peerIndex p).1 = peerIndex
   ∧ ∀ q, (PeerStart q ∉ (processNewPeer peer maxPeerCount peerIndex p).2)
          ∧ (PeerStop q ∉ (processNewPeer peer maxPeerCount peerIndex p).2))
  ∧ (peerIndex !! String_ p = None →
     Z.of_nat (size peerIndex) < maxPeerCount →
     processNewPeer peer maxPeerCount peerIndex p
     = (<[String_ p := p]> peerIndex,
        [Log Debug "Starting new peer %v" (Some p); PeerStart p])).
Proof.
  unfold processNewPeer. split.
  - intros Hdiscard.
    assert (∀ l f (q : peer),
              (PeerStart q ∉ [Log l f (Some p)])
              ∧ (PeerStop q ∉ [Log l f (Some p)])) as Hlog.
    { intros l f q. split; intros Hin;
        apply list_elem_of_singleton in Hin; discriminate. }
    destruct (peerIndex !! String_ p) eqn:Hk; simpl; first by auto.
    destruct Hdiscard as [[x Hx]|Hfull]; first done.
    destruct (Z.geb_spec (Z.of_nat (size peerIndex)) maxPeerCount);
      simpl; [by auto | lia].
  - intros -> Hroom.
    destruct (Z.geb_spec (Z.of_nat (size peerIndex)) maxPeerCount);
      [lia | done].
Qed.

End ManagerClaims.

Lemma processNewPeer_discards_or_starts_witness :
  let first := {| connId := 1; connRemote := peerA |} in
  let second := {| connId := 2; connRemote := peerB |} in
  @Manager.processNewPeer conn conn_String 2
     {[ "1.2.3.4:8333" := first ]} second
  = ({[ "5.6.7.8:8333" := second; "1.2.3.4:8333" := first ]},
     [Manager.Log Manager.Debug "Starting new peer %v" (Some second);
      Manager.PeerStart second]).
Proof.
  intros first second.
  apply (proj2 (@processNewPeer_discards_or_starts conn conn_String 2
                  {[ "1.2.3.4:8333" := first ]} second)).
  - reflexivity.
  - vm_compute. reflexivity.
Defined.

(** C4 as stated fails: a second connection from an address that is in the
    index is left out of the index, but the manager does not stop it: all it
    does is write one warning. *)
Lemma processNewPeer_does_not_stop :
  let first := {| connId := 1; connRemote := peerA |} in
  let again := {| connId := 2; connRemote := peerA |} in
  let peerIndex : gmap string conn := {[ "1.2.3.4:8333" := first ]} in
  is_Some (peerIndex !! conn_String again)
  ∧ @Manager.processNewPeer conn conn_String 1000 peerIndex again
    = (peerIndex,
       [Manager.Log Manager.Warning "Trying to add existing peer to index %v"
          (Some again)])
  ∧ Manager.PeerStop again
    ∉ (@Manager.processNewPeer conn conn_String 1000 peerIndex again).2.
Proof.
  intros first again peerIndex. split; [|split].
  - exists first. reflexivity.
  - reflexivity.
  - intros Hin. apply list_elem_of_singleton in Hin. discriminate.
Qed.

(** ** The records *)

Lemma append_assoc (a b c : string) : (a +:+ b) +:+ c = a +:+ b +:+ c.
Proof.
  induction a as [|x a IH]; first done.
  change (String x ((a +:+ b) +:+ c) = String x (a +:+ b +:+ c)).
  by rewrite IH.
Qed.

Lemma append_empty_r (a : string) : a +:+ "" = a.
Proof.
  induction a as [|x a IH]; first done.
  change (String x (a +:+ "") = String x a). by rewrite IH.
Qed.

Lemma littleEndian_length (n : nat) (v : Z) : length (littleEndian n v) = n.
Proof. revert v. induction n as [|n IH]; intros v; simpl; by rewrite ?IH. Qed.

Lemma To16_length (ip : IP) :
  length ip = 4%nat ∨ length ip = 16%nat → length (To16 ip) = 16%nat.
Proof.
  unfold To16. intros [Hlen|Hlen]; rewrite Hlen; simpl; last done.
  by rewrite Hlen.
Qed.

Lemma foldl_append_buffer {A} (f : A → list Z) (buf : list Z) (l : list A) :
  foldl (λ buf a, buf ++ f a) buf l = buf ++ concat (f <$> l).
Proof.
  revert buf. induction l as [|a l IH]; intros buf; simpl.
  - by rewrite app_nil_r.
  - by rewrite IH, app_assoc.
Qed.

Lemma concat_length_const {A} (f : A → list Z) (l : list A) (n : nat) :
  Forall (λ a, length (f a) = n) l →
  length (concat (f <$> l)) = (n * length l)%nat.
Proof.
  induction 1 as [|a l Ha _ IH]; first (simpl; lia).
  rewrite fmap_cons. cbn [concat length].
  rewrite length_app, Ha, IH. lia.
Qed.

Lemma foldl_entry_lines {A} `{!Stringer A} (buf : string) (l : list A) :
  foldl (λ buf a,
           WriteString (WriteString (WriteString buf newline) " ") (String_ a))
        buf l
  = buf +:+ entry_lines l.
Proof.
  unfold entry_lines, WriteString.
  induction l as [|a l IH] using rev_ind; simpl.
  - by rewrite append_empty_r.
  - rewrite !foldl_app. simpl. rewrite IH. by rewrite !append_assoc.
Qed.

Section RecordClaims.

Variable EntryRecord : Type.
Context `{!Stringer TCPAddr, !Stringer EntryRecord}.
Variable EntryRecord_Bytes : EntryRecord → list Z.
Variable ParseCommand : string → Z.
Variable Delimiter1 : string.

(** C3, as amended: the text of an address record is the command, the
    RFC3339Nano timestamp, the remote address and the local address, in that
    order and one space apart, followed by the entry count and the entry
    lines; the text of a verack record begins with the timestamp instead,
    followed by the command, the remote address and the local address, with
    [Delimiter1] between them. *)
Theorem record_text_order (ar : Recorder.AddressRecord EntryRecord)
    (vr : Records.VerAckRecord) :
  Recorder.AddressRecord_String EntryRecord ar
  = Recorder.cmd _ ar +:+ " "
      +:+ Format_RFC3339Nano (Recorder.stamp _ ar) +:+ " "
      +:+ String_ (Recorder.ra _ ar) +:+ " "
      +:+ String_ (Recorder.la _ ar) +:+ " "
      +:+ pretty (Z.of_nat (length (Recorder.addrs _ ar)))
      +:+ entry_lines (Recorder.addrs _ ar)
  ∧ Records.VerAckRecord_String Delimiter1 vr
    = Format_RFC3339Nano (Records.stamp (Records.Record__ vr)) +:+ Delimiter1
        +:+ Records.cmd (Records.Record__ vr) +:+ Delimiter1
        +:+ String_ (Records.ra (Records.Record__ vr)) +:+ Delimiter1
        +:+ String_ (Records.la (Records.Record__ vr)).
Proof.
  split.
  - unfold Recorder.AddressRecord_String.
    rewrite foldl_entry_lines. unfold WriteString.
    change ("" +:+ ?s) with s. by rewrite !append_assoc.
  - unfold Records.VerAckRecord_String, WriteString.
    change ("" +:+ ?s) with s. by rewrite !append_assoc.
Qed.

(** C6: the binary form of an address record with N entries is a header of
    47 bytes (timestamp in nanoseconds on 8 bytes, remote IP on 16, remote
    port on 2, local IP on 16, local port on 2, command code on 1, entry
    count on 2, all little-endian) followed by the N entries, 47 + 30 N
    bytes in all.  The two endpoints carry an IP address of 4 or 16 bytes,
    and [EntryRecord.Bytes] yields the 30 bytes of an entry. *)
Theorem AddressRecord_Bytes_length (ar : Recorder.AddressRecord EntryRecord) :
  length (addrIP (Recorder.ra _ ar)) = 4%nat
    ∨ length (addrIP (Recorder.ra _ ar)) = 16%nat →
  length (addrIP (Recorder.la _ ar)) = 4%nat
    ∨ length (addrIP (Recorder.la _ ar)) = 16%nat →
  Forall (λ a, length (EntryRecord_Bytes a) = 30%nat) (Recorder.addrs _ ar) →
  let header :=
    littleEndian 8 (UnixNano (Recorder.stamp _ ar))
      ++ To16 (addrIP (Recorder.ra _ ar))
      ++ littleEndian 2 (addrPort (Recorder.ra _ ar) mod 2 ^ 16)
      ++ To16 (addrIP (Recorder.la _ ar))
      ++ littleEndian 2 (addrPort (Recorder.la _ ar) mod 2 ^ 16)
      ++ littleEndian 1 (ParseCommand (Recorder.cmd _ ar))
      ++ littleEndian 2 (Z.of_nat (length (Recorder.addrs _ ar)) mod 2 ^ 16) in
  Recorder.AddressRecord_Bytes EntryRecord EntryRecord_Bytes ParseCommand ar
  = header ++ concat (EntryRecord_Bytes <$> Recorder.addrs _ ar)
  ∧ length header = 47%nat
  ∧ length (To16 (addrIP (Recorder.ra _ ar))) = 16%nat
  ∧ length (To16 (addrIP (Recorder.la _ ar))) = 16%nat
  ∧ length (Recorder.AddressRecord_Bytes EntryRecord EntryRecord_Bytes
              ParseCommand ar)
    = (47 + 30 * length (Recorder.addrs _ ar))%nat.
Proof.
  intros Hra Hla Hentries header.
  pose proof (To16_length _ Hra) as Hra16.
  pose proof (To16_length _ Hla) as Hla16.
  assert (Recorder.AddressRecord_Bytes EntryRecord EntryRecord_Bytes
            ParseCommand ar
          = header ++ concat (EntryRecord_Bytes <$> Recorder.addrs _ ar))
    as Hbytes.
  { unfold Recorder.AddressRecord_Bytes. rewrite foldl_append_buffer.
    subst header. f_equal. rewrite app_nil_l. by rewrite <- !app_assoc. }
  assert (length header = 47%nat) as Hheader.
  { subst header. rewrite !length_app, !littleEndian_length, Hra16, Hla16.
    done. }
  repeat split; try done.
  rewrite Hbytes, length_app, Hheader.
  by rewrite (concat_length_const _ _ 30%nat).
Qed.

End RecordClaims.

Lemma AddressRecord_Bytes_length_witness :
  length (@Recorder.AddressRecord_Bytes entry entry_Bytes (λ _, 1) twoAddrs)
  = 107%nat.
Proof.
  apply (@AddressRecord_Bytes_length entry entry_Bytes (λ _, 1) twoAddrs).
  - left. reflexivity.
  - left. reflexivity.
  - repeat constructor.
Defined.

Example AddressRecord_String_twoAddrs :
  @Recorder.AddressRecord_String entry dotted entry_String twoAddrs
  = "addr 2015-06-01T12:00:00.000000001Z 1.2.3.4:8333 5.6.7.8:8333 2"
      +:+ newline +:+ " 9.9.9.9:8333" +:+ newline +:+ " 8.8.4.4:18333".
Proof. vm_compute. reflexivity. Qed.

(** C3 as stated fails for the verack record: its text begins with the
    timestamp, the command comes second, whatever the delimiter is. *)
Lemma VerAckRecord_text_begins_with_stamp :
  let r := Records.Record__ oneVerAck in
  @Records.VerAckRecord_String dotted " " oneVerAck
  = "2015-06-01T12:00:00.000000001Z verack 1.2.3.4:8333 5.6.7.8:8333"
  ∧ ∀ delimiter rest,
      @Records.VerAckRecord_String dotted delimiter oneVerAck
      ≠ Records.cmd r +:+ " "
          +:+ Format_RFC3339Nano (Records.stamp r) +:+ " "
          +:+ dotted (Records.ra r) +:+ " "
          +:+ dotted (Records.la r) +:+ rest.
Proof.
  split.
  - vm_compute. reflexivity.
  - intros delimiter rest Heq. vm_compute in Heq. discriminate.
Qed.

(** ** The file writer *)

Example NewFileWriter_unlimited :
  Writer.NewFileWriter
    [Writer.SetSizeLimit 0; Writer.SetAgeLimit 0; Writer.SetFilePath "dumps"]
    false false quiet
  = Some (unlimited,
          [Writer.OsStat "dumps";
           Writer.OsCreate "dumps2015-06-01T12:00:00Z.txt";
           Writer.FileWriteString (Writer.file unlimited)
             ("#PBTC Log Version 1" +:+ newline);
           Writer.TimerNew 0]).
Proof. vm_compute. reflexivity. Qed.

Section WriterFacts.

Import Writer.
Implicit Types (w : FileWriter) (sys : Sys) (sched : list (received * Sys)).

Lemma rotateLog_control sys w : same_control w (rotateLog sys w).1.
Proof.
  unfold rotateLog.
  destruct (createFails sys); first done.
  by destruct (headerFails sys).
Qed.

Lemma checkTime_control sys w : same_control w (checkTime sys w).1.
Proof.
  unfold checkTime. destruct (fileAge w =? 0); first done.
  pose proof (rotateLog_control sys w). by destruct (rotateLog sys w).
Qed.

Lemma checkSize_control sys w w' calls :
  checkSize sys w = Returns (w', calls) → same_control w w'.
Proof.
  unfold checkSize. destruct (fileSize w =? 0).
  { intros [= <- _]. done. }
  destruct (file w); last done.
  destruct (statSize sys) as [size|]; last done.
  destruct (size <? fileSize w).
  { intros [= <- _]. done. }
  pose proof (rotateLog_control sys w). destruct (rotateLog sys w).
  intros [= <- _]. done.
Qed.

Lemma WriteLoop_control sched w w' calls :
  WriteLoop sched w = Returns (w', calls) →
  same_control w w' ∧ sigWriter w = true.
Proof.
  revert w calls. induction sched as [|[[|txt] sys] rest IH]; intros w calls;
    simpl.
  - destruct (sigWriter w) eqn:Hsig; last done. intros [= <- _]. done.
  - pose proof (checkTime_control sys w) as (Hs & Hw & Hd).
    destruct (checkTime sys w) as [w1 calls1]; simpl in *.
    destruct (WriteLoop rest w1) as [[w2 calls2]| |] eqn:Hrest; try done.
    intros [= <- _]. destruct (IH _ _ Hrest) as ((Hs' & Hw' & Hd') & Hsig).
    unfold same_control. repeat split; congruence.
  - destruct (checkSize sys w) as [[w1 calls1]| |] eqn:Hsize; try done.
    destruct (checkSize_control _ _ _ _ Hsize) as (Hs & Hw & Hd).
    destruct (WriteLoop rest w1) as [[w2 calls2]| |] eqn:Hrest; try done.
    intros [= <- _]. destruct (IH _ _ Hrest) as ((Hs' & Hw' & Hd') & Hsig).
    unfold same_control. repeat split; congruence.
Qed.

Lemma goWriter_control sched w w' calls :
  goWriter sched w = Returns (w', calls) →
  sigWriter w' = sigWriter w ∧ wg w' = wg w - 1 ∧ done w' = done w.
Proof.
  unfold goWriter.
  destruct (WriteLoop sched w) as [[w1 calls1]| |] eqn:Hloop; try done.
  destruct (WriteLoop_control _ _ _ _ Hloop) as ((Hs & Hw & Hd) & _).
  destruct (wg w1 <=? 0); first done.
  intros [= <- _]. simpl. repeat split; congruence.
Qed.

Lemma Stop_done w sched :
  done w = 1 → Stop sched w = Returns (w, []).
Proof.
  intros Hdone. unfold Stop. rewrite Hdone. simpl.
  destruct w; simpl in *. by subst.
Qed.

End WriterFacts.

(** C8: with an age limit of zero the check made when the timer fires does
    nothing, and with a size limit of zero the check made after a write does
    nothing: in any state of the writer and whatever the outside world would
    answer, the writer is left as it was and no call is made, neither to
    create a file nor to re-arm the timer. *)
Theorem zero_limit_disables_rotation (sys : Writer.Sys)
    (w : Writer.FileWriter) :
  (Writer.fileAge w = 0 → Writer.checkTime sys w = (w, []))
  ∧ (Writer.fileSize w = 0 → Writer.checkSize sys w = Writer.Returns (w, [])).
Proof.
  split; intros Hzero.
  - unfold Writer.checkTime. by rewrite Hzero.
  - unfold Writer.checkSize. by rewrite Hzero.
Qed.

Lemma zero_limit_disables_rotation_witness :
  Writer.checkTime quiet unlimited = (unlimited, [])
  ∧ Writer.checkSize quiet unlimited = Writer.Returns (unlimited, []).
Proof.
  split.
  - apply (proj1 (zero_limit_disables_rotation quiet unlimited)). reflexivity.
  - apply (proj2 (zero_limit_disables_rotation quiet unlimited)). reflexivity.
Defined.

(** With limits that are not zero the same checks do rotate. *)
Example nonzero_limits_rotate :
  let limited := Writer.SetAgeLimit 300000000000
                   (Writer.SetSizeLimit 1024 unlimited) in
  let old :=
    {| Writer.fileName := "dumps2015-06-01T12:00:00Z.txt";
       Writer.fileClosed := false |} in
  let next :=
    {| Writer.fileName := "dumps2015-06-01T12:05:00Z.txt";
       Writer.fileClosed := false |} in
  let rotation :=
    [Writer.OsCreate "dumps2015-06-01T12:05:00Z.txt";
     Writer.FileWriteString (Some next) ("#PBTC Log Version 1" +:+ newline);
     Writer.FileSeek old;
     Writer.OsCreate "dumps2015-06-01T12:00:00Z.txt.out";
     Writer.CompGetWriter "dumps2015-06-01T12:00:00Z.txt.out";
     Writer.IoCopy "dumps2015-06-01T12:00:00Z.txt.out" old;
     Writer.FileClose (Some old)] in
  Writer.checkTime quietLater limited
  = (Writer.with_file limited (Some next),
     rotation ++ [Writer.TimerReset 300000000000])
  ∧ Writer.checkSize quietLater limited
    = Writer.Returns (Writer.with_file limited (Some next),
                      Writer.FileStat (Some old) :: rotation).
Proof. split; vm_compute; reflexivity. Qed.

(** C10: a call of [Stop] that returns leaves the done flag set; if the flag
    was not set before, it has also closed [sigWriter] and waited until the
    wait group is empty.  Every later call, whatever the goroutine might
    still have to handle, returns at once: it makes no call and leaves the
    writer as it is. *)
Theorem Stop_idempotent (sched sched' : list (Writer.received * Writer.Sys))
    (w w' : Writer.FileWriter) (calls : list Writer.call) :
  Writer.Stop sched w = Writer.Returns (w', calls) →
  Writer.done w' = 1
  ∧ (Writer.done w ≠ 1 → Writer.sigWriter w' = true ∧ Writer.wg w' = 0)
  ∧ Writer.Stop sched' w' = Writer.Returns (w', []).
Proof.
  intros Hstop.
  assert (Writer.done w' = 1
          ∧ (Writer.done w ≠ 1 →
             Writer.sigWriter w' = true ∧ Writer.wg w' = 0)) as [Hdone Hfirst].
  { unfold Writer.Stop in Hstop.
    destruct (Z.eqb_spec (Writer.done w) 1) as [Hset|Hunset].
    { injection Hstop as <- _. by split. }
    simpl in Hstop.
    destruct (Writer.sigWriter w); first done.
    destruct (Z.eqb_spec (Writer.wg w) 0) as [Hidle|Hbusy].
    { injection Hstop as <- _. by split. }
    destruct (Writer.goWriter sched _) as [[w1 calls1]| |] eqn:Hgo; try done.
    apply goWriter_control in Hgo as (Hs & Hw & Hd). simpl in *.
    destruct (Z.eqb_spec (Writer.wg w1) 0) as [Hzero|]; last done.
    injection Hstop as <- _. by split. }
  split; [done | split; [done |]].
  by apply Stop_done.
Qed.

Lemma Stop_idempotent_witness :
  let stopped :=
    {| Writer.filePath := "dumps"; Writer.fileSize := 0; Writer.fileAge := 0;
       Writer.file :=
         Some {| Writer.fileName := "dumps2015-06-01T12:00:00Z.txt";
                 Writer.fileClosed := true |};
       Writer.sigWriter := true; Writer.wg := 0; Writer.done := 1 |} in
  Writer.Stop [(Writer.Txt "verack", quiet)] unlimited
  = Writer.Returns
      (stopped,
       [Writer.FileWriteString (Writer.file unlimited) ("verack" +:+ newline);
        Writer.FileClose (Writer.file unlimited)])
  ∧ Writer.Stop [(Writer.Tick, quiet)] stopped = Writer.Returns (stopped, []).
Proof.
  intros stopped.
  assert (Writer.Stop [(Writer.Txt "verack", quiet)] unlimited
          = Writer.Returns
              (stopped,
               [Writer.FileWriteString (Writer.file unlimited)
                  ("verack" +:+ newline);
                Writer.FileClose (Writer.file unlimited)])) as Hfirst
    by reflexivity.
  split; first exact Hfirst.
  exact (proj2 (proj2 (Stop_idempotent _ [(Writer.Tick, quiet)] _ _ _ Hfirst))).
Defined.

(** * Further properties *)

(** ** The node repository: bookkeeping *)

Section BookkeepingFacts.

Import Repository.
Context `{!Stringer TCPAddr}.
Variable maxNodeCount : Z.

Implicit Types (nodeIndex : index) (n : node) (a s : TCPAddr).

Lemma Attempts_lookup nodeIndex a n (times : list Time) :
  nodeIndex !! String_ a = Some n →
  0 ≤ attempts n < 2 ^ 32 →
  foldl (λ m now, Attempt now m a) nodeIndex times !! String_ a
  = Some {| addr := addr n; src := src n;
            attempts := (attempts n + Z.of_nat (length times)) mod 2 ^ 32;
            lastAttempt := from_option Some (lastAttempt n) (last times);
            lastSuccess := lastSuccess n;
            lastConnect := lastConnect n |}.
Proof.
  revert nodeIndex n. induction times as [|now times IH];
    intros nodeIndex n Hn Hrange.
  - simpl. rewrite Hn, Z.add_0_r, Z.mod_small by done. by destruct n.
  - cbn [foldl]. unfold Attempt at 2. rewrite Hn.
    rewrite (IH _ {| addr := addr n; src := src n;
                     attempts := (attempts n + 1) mod 2 ^ 32;
                     lastAttempt := Some now;
                     lastSuccess := lastSuccess n;
                     lastConnect := lastConnect n |}).
    + f_equal. simpl. f_equal.
      * rewrite Zplus_mod_idemp_l. f_equal. lia.
      * rewrite (last_cons now times). by destruct (last times).
    + by rewrite lookup_insert_eq.
    + simpl. by apply Z.mod_pos_bound.
Qed.

(** X1: [Attempt] called k times on an address of the index adds k to the
    attempt counter of its node, wrapping at 2^32, and leaves the time of
    the last call in [lastAttempt]; the other fields stay as they were. *)
Theorem Attempt_counts nodeIndex a n (times : list Time) :
  nodeIndex !! String_ a = Some n →
  0 ≤ attempts n < 2 ^ 32 →
  foldl (λ m now, Attempt now m a) nodeIndex times !! String_ a
  = Some {| addr := addr n; src := src n;
            attempts := (attempts n + Z.of_nat (length times)) mod 2 ^ 32;
            lastAttempt := from_option Some (lastAttempt n) (last times);
            lastSuccess := lastSuccess n;
            lastConnect := lastConnect n |}.
Proof. apply Attempts_lookup. Qed.

(** X2: [Good] after any number of calls of [Attempt] leaves the counter at
    zero and stamps [lastSuccess], while [lastAttempt] still tells when the
    last attempt was made. *)
Theorem Good_after_Attempts nodeIndex a n (times : list Time) (now : Time) :
  nodeIndex !! String_ a = Some n →
  0 ≤ attempts n < 2 ^ 32 →
  Good now (foldl (λ m t, Attempt t m a) nodeIndex times) a !! String_ a
  = Some {| addr := addr n; src := src n; attempts := 0;
            lastAttempt := from_option Some (lastAttempt n) (last times);
            lastSuccess := Some now;
            lastConnect := lastConnect n |}.
Proof.
  intros Hn Hrange. unfold Good.
  rewrite (Attempts_lookup nodeIndex a n times Hn Hrange).
  by rewrite lookup_insert_eq.
Qed.

(** X3: on an address that is not in the index the four bookkeeping
    operations leave the index as it is ([Update] handing a new node to the
    queue), and on any address they leave every other node untouched. *)
Theorem bookkeeping_elsewhere nodeIndex a s (now : Time) :
  (nodeIndex !! String_ a = None →
   Update nodeIndex a s = (nodeIndex, Some (newNode a s))
   ∧ Attempt now nodeIndex a = nodeIndex
   ∧ Connected now nodeIndex a = nodeIndex
   ∧ Good now nodeIndex a = nodeIndex)
  ∧ (∀ k, k ≠ String_ a →
       (Update nodeIndex a s).1 !! k = nodeIndex !! k
       ∧ Attempt now nodeIndex a !! k = nodeIndex !! k
       ∧ Connected now nodeIndex a !! k = nodeIndex !! k
       ∧ Good now nodeIndex a !! k = nodeIndex !! k).
Proof.
  unfold Update, Attempt, Connected, Good. split.
  - by intros ->.
  - intros k Hk. destruct (nodeIndex !! String_ a); simpl; last done.
    by rewrite !lookup_insert_ne.
Qed.

(** X4: an address that is new to the repository gets into the index by
    way of the queue: [Update] queues a fresh node, the handler inserts it
    when there is room, and from then on [Update] only replaces the source
    of that node. *)
Theorem Update_through_queue nodeIndex a s s' :
  nodeIndex !! String_ a = None →
  Z.of_nat (size nodeIndex) < maxNodeCount →
  ∃ n nodeIndex',
    Update nodeIndex a s = (nodeIndex, Some n)
    ∧ handleNodes_turn maxNodeCount nodeIndex (NodeQ n)
      = (nodeIndex', Continue)
    ∧ nodeIndex' !! String_ a = Some (newNode a s)
    ∧ Update nodeIndex' a s'
      = (<[String_ a := newNode a s']> nodeIndex, None).
Proof.
  intros Hnew Hroom. exists (newNode a s), (<[String_ a := newNode a s]> nodeIndex).
  split; [|split; [|split]].
  - unfold Update. by rewrite Hnew.
  - simpl. rewrite Hnew.
    destruct (Z.geb_spec (Z.of_nat (size nodeIndex)) maxNodeCount); [lia|done].
  - by rewrite lookup_insert_eq.
  - unfold Update. rewrite lookup_insert_eq. simpl.
    by rewrite insert_insert_eq.
Qed.

End BookkeepingFacts.

(** ** The node repository: selection and intake *)

(** X5: every node of the index can be chosen: for each of them some value
    of the random source makes [Get] return its address. *)
Theorem Get_reaches_every_node (nodeIndex : Repository.index)
    (order : list (string * Repository.node)) (k : string)
    (n : Repository.node) :
  order ≡ₚ map_to_list nodeIndex →
  nodeIndex !! k = Some n →
  ∃ r, 0 ≤ r ∧ Repository.Get r nodeIndex order = inl (Repository.addr n).
Proof.
  intros Hperm Hk.
  assert ((k, n) ∈ order) as Hin
    by (rewrite Hperm; by apply elem_of_map_to_list).
  apply list_elem_of_lookup in Hin as [i Hi].
  assert (length order = size nodeIndex) as Hlen
    by by rewrite Hperm, length_map_to_list.
  pose proof (lookup_lt_Some _ _ _ Hi) as Hlt.
  exists (Z.of_nat i). split; first lia.
  unfold Repository.Get.
  destruct (Z.eqb_spec (Z.of_nat (size nodeIndex)) 0) as [|_]; first lia.
  rewrite Z.rem_small by lia.
  rewrite Get_loop_lookup by lia.
  replace (Z.to_nat (Z.of_nat i - 0)) with i by lia.
  by rewrite Hi.
Qed.

Lemma Get_reaches_every_node_witness :
  ∃ r, 0 ≤ r
       ∧ Repository.Get r {[ "1.2.3.4:8333" := nodeA ]}
           [("1.2.3.4:8333", nodeA)]
         = inl peerA.
Proof.
  apply (Get_reaches_every_node {[ "1.2.3.4:8333" := nodeA ]}
           [("1.2.3.4:8333", nodeA)] "1.2.3.4:8333" nodeA).
  - by rewrite map_to_list_singleton.
  - reflexivity.
Defined.

Section IntakeFacts.

Import Repository.
Context `{!Stringer TCPAddr}.
Variable maxNodeCount : Z.

Implicit Types (nodeIndex : index) (n : node) (e : event).

Lemma handleNodes_turn_keeps nodeIndex e k n :
  nodeIndex !! k = Some n →
  (handleNodes_turn maxNodeCount nodeIndex e).1 !! k = Some n.
Proof.
  intros Hk. destruct e as [| |n']; simpl; try done.
  destruct (nodeIndex !! String_ (addr n')) eqn:Hn'; simpl; first done.
  destruct (Z.of_nat (size nodeIndex) >=? maxNodeCount); simpl; first done.
  rewrite lookup_insert_ne; first done. congruence.
Qed.

Lemma handleNodes_turn_keyed nodeIndex e :
  (∀ k n, nodeIndex !! k = Some n → String_ (addr n) = k) →
  ∀ k n, (handleNodes_turn maxNodeCount nodeIndex e).1 !! k = Some n →
         String_ (addr n) = k.
Proof.
  intros Hkeyed k n. destruct e as [| |n']; simpl; auto.
  destruct (nodeIndex !! String_ (addr n')) eqn:Hn'; simpl; auto.
  destruct (Z.of_nat (size nodeIndex) >=? maxNodeCount); simpl; auto.
  rewrite lookup_insert. case_decide as Heq.
  - intros [= <-]. done.
  - auto.
Qed.

(** X7: the node handler only ever adds to the index: whatever arrives, a
    node that is in the index stays there unchanged, and if every node was
    filed under its own address, every node still is. *)
Theorem handleNodes_keeps_entries nodeIndex events :
  (∀ k n, nodeIndex !! k = Some n →
          (handleNodes maxNodeCount nodeIndex events).1 !! k = Some n)
  ∧ ((∀ k n, nodeIndex !! k = Some n → String_ (addr n) = k) →
     ∀ k n, (handleNodes maxNodeCount nodeIndex events).1 !! k = Some n →
            String_ (addr n) = k).
Proof.
  revert nodeIndex. induction events as [|e rest IH]; intros nodeIndex.
  - by split.
  - pose proof (handleNodes_turn_keeps nodeIndex e) as Hkeeps.
    pose proof (handleNodes_turn_keyed nodeIndex e) as Hkeyed.
    cbn [handleNodes].
    destruct (handleNodes_turn maxNodeCount nodeIndex e) as [m [| |]];
      simpl in *; [|by split..].
    destruct (IH m) as [IH1 IH2]. split.
    + intros k n Hk. by apply IH1, Hkeeps.
    + intros Hall. by apply IH2, Hkeyed.
Qed.

(** X8: of a queue of nodes with new, pairwise different addresses the
    handler inserts as many as there is room for, in the order of arrival:
    if they all fit it goes on waiting, otherwise it returns at the first
    one that does not fit and the rest stays in the queue. *)
Theorem handleNodes_fills_to_limit nodeIndex (nodes : list node) :
  NoDup ((λ n, String_ (addr n)) <$> nodes) →
  (∀ n, n ∈ nodes → nodeIndex !! String_ (addr n) = None) →
  let room := Z.to_nat (maxNodeCount - Z.of_nat (size nodeIndex)) in
  handleNodes maxNodeCount nodeIndex (NodeQ <$> nodes)
  = (foldl (λ m n, <[String_ (addr n) := n]> m) nodeIndex (take room nodes),
     if bool_decide (length nodes ≤ room)%nat then Continue else Return).
Proof.
  revert nodeIndex. induction nodes as [|n nodes IH];
    intros nodeIndex Hnodup Hfresh room.
  - simpl. by rewrite take_nil.
  - rewrite fmap_cons in Hnodup. apply NoDup_cons in Hnodup as [Hn Hnodup].
    rewrite fmap_cons. cbn [handleNodes]. simpl.
    rewrite (Hfresh n) by left.
    destruct (Z.geb_spec (Z.of_nat (size nodeIndex)) maxNodeCount) as [Hfull|Hroom].
    + assert (room = 0%nat) as -> by (subst room; lia). done.
    + assert (∃ room', room = S room') as [room' Hroom'].
      { exists (Nat.pred room). subst room. lia. }
      rewrite Hroom'. cbn [take foldl].
      rewrite IH.
      * rewrite map_size_insert_None by (by apply Hfresh; left).
        replace (Z.to_nat (maxNodeCount - Z.of_nat (S (size nodeIndex))))
          with room' by (subst room; lia).
        f_equal.
        destruct (decide (length nodes ≤ room')%nat).
        -- by rewrite !bool_decide_eq_true_2 by lia.
        -- by rewrite !bool_decide_eq_false_2 by lia.
      * done.
      * intros n' Hn'. rewrite lookup_insert_ne.
        -- apply Hfresh. by right.
        -- intros Heq. apply Hn. rewrite Heq.
           by apply (list_elem_of_fmap_2 (λ n, String_ (addr n))).
Qed.

End IntakeFacts.

Lemma handleNodes_fills_to_limit_witness :
  @Repository.handleNodes dotted 1 ∅
    (Repository.NodeQ <$> [nodeA; nodeB])
  = ({[ "1.2.3.4:8333" := nodeA ]}, Repository.Return).
Proof.
  assert (NoDup ((λ n, dotted (Repository.addr n)) <$> [nodeA; nodeB]))
    as Hnodup.
  { vm_compute. repeat constructor.
    - intros Hin. apply list_elem_of_singleton in Hin. discriminate.
    - intros Hin. by apply elem_of_nil in Hin. }
  assert (∀ n, n ∈ [nodeA; nodeB] →
               (∅ : Repository.index) !! dotted (Repository.addr n) = None)
    as Hfresh by (intros n _; apply lookup_empty).
  rewrite (@handleNodes_fills_to_limit dotted 1 ∅ [nodeA; nodeB]
             Hnodup Hfresh).
  reflexivity.
Defined.

Lemma Attempt_counts_witness :
  foldl (λ m now, @Repository.Attempt dotted now m peerA)
        {[ "1.2.3.4:8333" := nodeA ]} [noon; fivePast]
    !! "1.2.3.4:8333"
  = Some {| Repository.addr := peerA; Repository.src := seedSrc;
            Repository.attempts := 2;
            Repository.lastAttempt := Some fivePast;
            Repository.lastSuccess := None;
            Repository.lastConnect := None |}.
Proof.
  apply (@Attempt_counts dotted {[ "1.2.3.4:8333" := nodeA ]} peerA nodeA
           [noon; fivePast]).
  - reflexivity.
  - simpl. lia.
Defined.

Lemma Good_after_Attempts_witness :
  @Repository.Good dotted fivePast
    (foldl (λ m t, @Repository.Attempt dotted t m peerA)
           {[ "1.2.3.4:8333" := nodeA ]} [noon; noon])
    peerA !! "1.2.3.4:8333"
  = Some {| Repository.addr := peerA; Repository.src := seedSrc;
            Repository.attempts := 0;
            Repository.lastAttempt := Some noon;
            Repository.lastSuccess := Some fivePast;
            Repository.lastConnect := None |}.
Proof.
  apply (@Good_after_Attempts dotted {[ "1.2.3.4:8333" := nodeA ]} peerA nodeA
           [noon; noon] fivePast).
  - reflexivity.
  - simpl. lia.
Defined.

Lemma Update_through_queue_witness :
  ∃ n nodeIndex',
    @Repository.Update dotted ∅ peerA seedSrc = (∅, Some n)
    ∧ @Repository.handleNodes_turn dotted 2 ∅ (Repository.NodeQ n)
      = (nodeIndex', Repository.Continue)
    ∧ nodeIndex' !! "1.2.3.4:8333" = Some (Repository.newNode peerA seedSrc)
    ∧ @Repository.Update dotted nodeIndex' peerA peerB
      = (<[ "1.2.3.4:8333" := Repository.newNode peerA peerB ]> ∅, None).
Proof.
  apply (@Update_through_queue dotted 2 ∅ peerA seedSrc peerB).
  - reflexivity.
  - vm_compute. reflexivity.
Defined.

(** ** The node repository: saving *)

Section SavingFacts.

Import Repository.
Implicit Types (d : disk) (nodeIndex : index).
Variable gobEncode : index → list (list Z).

Lemma save_complete d nodeIndex :
  fs_run d (save true gobEncode nodeIndex) !! "nodes.dat"
  = Some (concat (gobEncode nodeIndex)).
Proof.
  pose proof (save_interrupted gobEncode nodeIndex d
                (length (save true gobEncode nodeIndex))) as Hall.
  rewrite take_ge in Hall by lia.
  rewrite Hall. do 2 f_equal. apply take_ge.
  unfold save. simpl. rewrite length_app, length_fmap. lia.
Qed.

Lemma handleSave_open (before after : list save_event) :
  SigSaveClosed ∉ before →
  (handleSave gobEncode (before ++ after)).1
  = (handleSave gobEncode before).1 ++ (handleSave gobEncode after).1.
Proof.
  induction before as [|[| |createOk nodeIndex] rest IH]; intros Hopen.
  - done.
  - simpl. apply IH. by apply not_elem_of_cons in Hopen as [_ ?].
  - exfalso. apply Hopen. by left.
  - apply not_elem_of_cons in Hopen as [_ Hopen]. specialize (IH Hopen).
    simpl in *.
    destruct (handleSave gobEncode (rest ++ after)) as [ops c].
    destruct (handleSave gobEncode rest) as [ops1 c1].
    simpl in *. by rewrite IH, app_assoc.
Qed.

Lemma handleSave_closed (before after : list save_event) :
  handleSave gobEncode (before ++ SigSaveClosed :: after)
  = handleSave gobEncode (before ++ [SigSaveClosed]).
Proof.
  induction before as [|[| |createOk nodeIndex] rest IH]; simpl; try done.
  by rewrite IH.
Qed.

(** X9: the save handler rewrites the node file from scratch at each tick:
    as long as sigSave is open, after a tick on which the file could be
    created the file holds the encoding of the index as it was at that
    tick, and nothing else, whatever was saved before; once sigSave is
    closed the handler touches the file no more. *)
Theorem handleSave_last_tick (before after : list save_event)
    nodeIndex d :
  SigSaveClosed ∉ before →
  fs_run d (handleSave gobEncode (before ++ [SaveTick true nodeIndex])).1
    !! "nodes.dat"
  = Some (concat (gobEncode nodeIndex))
  ∧ handleSave gobEncode
      (before ++ [SaveTick true nodeIndex] ++ SigSaveClosed :: after)
    = ((handleSave gobEncode (before ++ [SaveTick true nodeIndex])).1, Break).
Proof.
  intros Hopen. split.
  - rewrite handleSave_open by done.
    unfold fs_run. rewrite foldl_app.
    cbn [handleSave fst]. rewrite app_nil_r.
    apply (save_complete (foldl fs_step d (handleSave gobEncode before).1)).
  - rewrite app_assoc, handleSave_closed.
    assert (SigSaveClosed ∉ before ++ [SaveTick true nodeIndex]) as Hopen'.
    { intros Hin. apply elem_of_app in Hin as [Hin|Hin]; first done.
      apply list_elem_of_singleton in Hin. discriminate. }
    clear Hopen. revert Hopen'.
    generalize (before ++ [SaveTick true nodeIndex]). clear before.
    intros events. induction events as [|[| |createOk m] rest IH];
      intros Hopen; simpl.
    + done.
    + apply IH. by apply not_elem_of_cons in Hopen as [_ ?].
    + exfalso. apply Hopen. by left.
    + apply not_elem_of_cons in Hopen as [_ Hopen]. specialize (IH Hopen).
      destruct (handleSave gobEncode (rest ++ [SigSaveClosed])) as [ops c].
      destruct (handleSave gobEncode rest) as [ops1 c1].
      simpl in *. by injection IH as -> ->.
Qed.

End SavingFacts.

Lemma handleSave_last_tick_witness :
  let gobEncode : Repository.index → list (list Z) :=
    λ m, [[Z.of_nat (size m)]; [7]] in
  Repository.fs_run {[ "nodes.dat" := [9; 9; 9] ]}
    (Repository.handleSave gobEncode
       ([Repository.SaveTick true ∅; Repository.SigSaveValue]
          ++ [Repository.SaveTick true {[ "1.2.3.4:8333" := nodeA ]}])).1
    !! "nodes.dat"
  = Some [1; 7].
Proof.
  intros gobEncode.
  assert (Repository.SigSaveClosed
            ∉ [Repository.SaveTick true ∅; Repository.SigSaveValue]) as Hopen.
  { intros Hin. repeat (apply elem_of_cons in Hin as [Heq|Hin];
                        first discriminate).
    by apply elem_of_nil in Hin. }
  exact (proj1 (handleSave_last_tick gobEncode _ []
                  {[ "1.2.3.4:8333" := nodeA ]}
                  {[ "nodes.dat" := [9; 9; 9] ]} Hopen)).
Defined.

(** ** The node repository: start, bootstrap and stop *)

Lemma foldl_invariant {A B} (P : A → Prop) (f : A → B → A) (l : list B)
    (a : A) :
  (∀ a x, x ∈ l → P a → P (f a x)) → P a → P (foldl f a l).
Proof.
  revert a. induction l as [|x l IH]; intros a Hstep Ha; simpl; first done.
  apply IH.
  - intros a' y Hy. apply Hstep. by right.
  - apply Hstep; [by left | done].
Qed.

Lemma foldl_option_invariant {A B} (P : A → Prop) (f : A → B → option A)
    (l : list B) (a a' : A) :
  (∀ a a' x, x ∈ l → P a → f a x = Some a' → P a') →
  P a →
  foldl (λ st x, st ≫= λ st, f st x) (Some a) l = Some a' →
  P a'.
Proof.
  revert a. induction l as [|x l IH]; intros a Hstep Ha; simpl.
  - by intros [= <-].
  - destruct (f a x) as [a1|] eqn:Hf.
    + apply IH.
      * intros b b' y Hy. apply Hstep. by right.
      * by apply (Hstep a a1 x); [left | |].
    + intros Hnone. exfalso. clear -Hnone.
      induction l as [|y l IHl]; simpl in Hnone; [done | auto].
Qed.

Section LifeFacts.

Import Repository.
Context `{!Stringer TCPAddr, !Stringer IP}.
Variables stateIdle stateRunning : Z.
Variable bufferRepoNode : Z.
Variable protocolNetwork : Z.
Variable LookupIP : string → list IP + string.
Variable ResolveTCPAddr : string → TCPAddr + string.

Implicit Types (nodeIndex : index) (nodeQ : list node) (n : node).

(** X6: [local] answers with the zero address of the family of the
    address it is given, four-byte convertible or not, and port zero. *)
Theorem local_same_family (a : TCPAddr) :
  addrPort (local a) = 0
  ∧ length (addrIP (local a)) = 16%nat
  ∧ (To4 (addrIP a) ≠ [] → To4 (addrIP (local a)) = [0; 0; 0; 0])
  ∧ (To4 (addrIP a) = [] →
     addrIP (local a) = IPv6zero ∧ To4 (addrIP (local a)) = []).
Proof.
  unfold local. destruct (To4 (addrIP a)); simpl; repeat split; done.
Qed.

Lemma bootstrap_ip_invariant nodeIndex nodeQ seed ips ip st st' :
  seed ∈ seeds → LookupIP seed = inl ips → ip ∈ ips →
  bootstrap_invariant protocolNetwork LookupIP ResolveTCPAddr
    nodeIndex nodeQ st →
  bootstrap_ip bufferRepoNode protocolNetwork ResolveTCPAddr st ip
  = Some st' →
  bootstrap_invariant protocolNetwork LookupIP ResolveTCPAddr
    nodeIndex nodeQ st'.
Proof.
  intros Hseed Hips Hip. destruct st as [[m q] logged].
  intros [Hm (sent & Hq & Hsent)]. simpl in Hm, Hq. subst m q.
  unfold bootstrap_ip.
  destruct (ResolveTCPAddr _) as [a|err] eqn:Hresolve.
  2: { intros [= <-]. split; simpl; eauto. }
  destruct (nodeIndex !! String_ a) eqn:Hknown.
  { intros [= <-]. split; simpl; eauto. }
  unfold Update. rewrite Hknown.
  destruct (Z.of_nat (length (nodeQ ++ sent)) <? bufferRepoNode); last done.
  intros [= <-]. split; simpl; first done.
  exists (sent ++ [newNode a (local a)]). split.
  - by rewrite app_assoc.
  - apply Forall_app. split; first done.
    apply Forall_singleton. repeat split; simpl; try done.
    exists seed, ips, ip. by repeat split.
Qed.

Lemma bootstrap_seed_invariant nodeIndex nodeQ seed st st' :
  seed ∈ seeds →
  bootstrap_invariant protocolNetwork LookupIP ResolveTCPAddr
    nodeIndex nodeQ st →
  bootstrap_seed bufferRepoNode protocolNetwork LookupIP ResolveTCPAddr
    st seed = Some st' →
  bootstrap_invariant protocolNetwork LookupIP ResolveTCPAddr
    nodeIndex nodeQ st'.
Proof.
  intros Hseed. destruct st as [[m q] logged]. intros Hst.
  unfold bootstrap_seed.
  destruct (LookupIP seed) as [ips|err] eqn:Hips.
  2: { by intros [= <-]. }
  apply (foldl_option_invariant
           (bootstrap_invariant protocolNetwork LookupIP ResolveTCPAddr
              nodeIndex nodeQ)); last done.
  intros st1 st2 ip Hip. by apply (bootstrap_ip_invariant _ _ seed ips).
Qed.

(** X10: [bootstrap] leaves the index as it is and only adds to the queue;
    each node it sends is a fresh node for an address that is not in the
    index, resolved from an IP that a seed answered and the default port,
    with a zero address as its source.  When no seed can be looked up it
    sends nothing and does not wait. *)
Theorem bootstrap_sends_new_nodes nodeIndex nodeQ :
  (∀ st,
     bootstrap bufferRepoNode protocolNetwork LookupIP ResolveTCPAddr
       nodeIndex nodeQ = Some st →
     st.1.1 = nodeIndex
     ∧ ∃ sent,
         st.1.2 = nodeQ ++ sent
         ∧ Forall (bootstrapped protocolNetwork LookupIP ResolveTCPAddr
                     nodeIndex) sent)
  ∧ ((∀ seed, seed ∈ seeds → ∃ err, LookupIP seed = inr err) →
     ∃ logged,
       bootstrap bufferRepoNode protocolNetwork LookupIP ResolveTCPAddr
         nodeIndex nodeQ = Some (nodeIndex, nodeQ, logged)).
Proof.
  unfold bootstrap.
  set (start := (nodeIndex, nodeQ,
                 ["Bootstrapping from DNS seeds "
                    +:+ pretty (Z.of_nat (length seeds))])).
  split.
  - intros st.
    destruct (foldl _ (Some start) seeds) as [[[m q] logged]|] eqn:Hrun;
      last done.
    intros [= <-]. simpl.
    apply (foldl_option_invariant
             (bootstrap_invariant protocolNetwork LookupIP ResolveTCPAddr
                nodeIndex nodeQ)) in Hrun.
    + done.
    + intros st1 st2 seed Hseed. by apply bootstrap_seed_invariant.
    + split; simpl; first done. exists []. by rewrite app_nil_r.
  - intros Hfail.
    assert (∃ logged,
              foldl (λ st seed,
                       st ≫= λ st,
                         bootstrap_seed bufferRepoNode protocolNetwork
                           LookupIP ResolveTCPAddr st seed)
                    (Some start) seeds
              = Some (nodeIndex, nodeQ, logged)) as [logged ->];
      last by eexists.
    subst start. generalize (["Bootstrapping from DNS seeds "
                                +:+ pretty (Z.of_nat (length seeds))]).
    revert Hfail. generalize seeds. intros l.
    induction l as [|seed l IH]; intros Hfail logged; simpl.
    + by eexists.
    + destruct (Hfail seed) as [err ->]; first by left.
      apply IH. intros seed' Hseed'. apply Hfail. by right.
Qed.

(** X11: a repository can be started and stopped once.  Stopped, it is
    idle again and can be started again, which does not renew its signal
    channels; the next [Stop] then closes a closed channel and panics. *)
Theorem Stop_after_restart_panics (f f' : nodesFile)
    (createOk createOk' : bool) (gobEncode : index → list (list Z))
    (started : repository) :
  Start stateIdle stateRunning bufferRepoNode protocolNetwork LookupIP
    ResolveTCPAddr f (NewRepository stateIdle) = Some started →
  ∃ stopped ops,
    Stop stateIdle stateRunning createOk gobEncode started
    = Some (stopped, ops)
    ∧ repo_state stopped = stateIdle
    ∧ ∀ restarted,
        Start stateIdle stateRunning bufferRepoNode protocolNetwork LookupIP
          ResolveTCPAddr f' stopped = Some restarted →
        repo_state restarted = stateRunning
        ∧ Stop stateIdle stateRunning createOk' gobEncode restarted = None.
Proof.
  unfold Start at 1, NewRepository. simpl. rewrite Z.eqb_refl. simpl.
  destruct (bootstrap _ _ _ _ _ _) as [[[m q] logged]|]; last done.
  intros [= <-].
  unfold Stop at 1. simpl. rewrite Z.eqb_refl. simpl.
  eexists _, _. split; first done. split; first done.
  intros restarted.
  unfold Start. simpl. rewrite Z.eqb_refl. simpl.
  destruct (bootstrap _ _ _ _ _ _) as [[[m' q'] logged']|]; last done.
  intros [= <-]. split; first done.
  unfold Stop. simpl. by rewrite Z.eqb_refl.
Qed.

End LifeFacts.

(** ** The connection manager: peer handling *)

Section PeerFacts.

Import Manager.
Variable peer : Type.
Context `{!Stringer peer}.
Variable maxPeerCount : Z.

Implicit Types (peerIndex : gmap string peer) (p q : peer).

Lemma processNewPeer_invariants peerIndex p :
  Z.of_nat (size peerIndex) ≤ maxPeerCount →
  keyed peerIndex →
  Z.of_nat (size (processNewPeer peer maxPeerCount peerIndex p).1)
  ≤ maxPeerCount
  ∧ keyed (processNewPeer peer maxPeerCount peerIndex p).1
  ∧ ∀ k q, (processNewPeer peer maxPeerCount peerIndex p).1 !! k = Some q →
           peerIndex !! k = Some q
           ∨ PeerStart q ∈ (processNewPeer peer maxPeerCount peerIndex p).2.
Proof.
  intros Hsize Hkeyed. unfold processNewPeer.
  destruct (peerIndex !! String_ p) eqn:Hp; simpl; first by auto.
  destruct (Z.geb_spec (Z.of_nat (size peerIndex)) maxPeerCount);
    simpl; first by auto.
  split; [|split].
  - rewrite map_size_insert_None by done. lia.
  - intros k q. rewrite lookup_insert. case_decide as Heq.
    + by intros [= <-].
    + apply Hkeyed.
  - intros k q. rewrite lookup_insert. case_decide as Heq.
    + intros [= <-]. right. by right; left.
    + by left.
Qed.

Lemma processDonePeer_invariants peerIndex p :
  Z.of_nat (size peerIndex) ≤ maxPeerCount →
  keyed peerIndex →
  Z.of_nat (size (processDonePeer peer peerIndex p).1) ≤ maxPeerCount
  ∧ keyed (processDonePeer peer peerIndex p).1
  ∧ ∀ k q, (processDonePeer peer peerIndex p).1 !! k = Some q →
           peerIndex !! k = Some q.
Proof.
  intros Hsize Hkeyed. unfold processDonePeer.
  destruct (peerIndex !! String_ p) eqn:Hp; simpl; last by auto.
  split; [|split].
  - rewrite map_size_delete, Hp. lia.
  - intros k q Hk. apply lookup_delete_Some in Hk as [_ Hk]. by apply Hkeyed.
  - intros k q Hk. by apply lookup_delete_Some in Hk as [_ Hk].
Qed.

Lemma PeerLoop_invariants peerIndex (events : list (peer_event peer)) :
  Z.of_nat (size peerIndex) ≤ maxPeerCount →
  keyed peerIndex →
  Z.of_nat (size (PeerLoop peer maxPeerCount peerIndex events).1.1)
  ≤ maxPeerCount
  ∧ keyed (PeerLoop peer maxPeerCount peerIndex events).1.1
  ∧ ∀ k q, (PeerLoop peer maxPeerCount peerIndex events).1.1 !! k = Some q →
           peerIndex !! k = Some q
           ∨ PeerStart q ∈ (PeerLoop peer maxPeerCount peerIndex events).1.2.
Proof.
  revert peerIndex.
  induction events as [|[| |p|p] rest IH]; intros peerIndex Hsize Hkeyed.
  - simpl. auto.
  - simpl. by apply IH.
  - simpl. auto.
  - destruct (processNewPeer_invariants peerIndex p Hsize Hkeyed)
      as (Hsize1 & Hkeyed1 & Hfrom1).
    cbn [PeerLoop].
    destruct (processNewPeer peer maxPeerCount peerIndex p) as [m effects].
    simpl in *.
    destruct (IH m Hsize1 Hkeyed1) as (Hsize2 & Hkeyed2 & Hfrom2).
    destruct (PeerLoop peer maxPeerCount m rest) as [[m' effects'] stopped].
    simpl in *. split; [done | split; [done |]].
    intros k q Hk. destruct (Hfrom2 k q Hk) as [Hm|Hstart].
    + destruct (Hfrom1 k q Hm) as [?|Hstart]; first by left.
      right. right. apply elem_of_app. by left.
    + right. right. apply elem_of_app. by right.
  - destruct (processDonePeer_invariants peerIndex p Hsize Hkeyed)
      as (Hsize1 & Hkeyed1 & Hfrom1).
    cbn [PeerLoop].
    destruct (processDonePeer peer peerIndex p) as [m effects].
    simpl in *.
    destruct (IH m Hsize1 Hkeyed1) as (Hsize2 & Hkeyed2 & Hfrom2).
    destruct (PeerLoop peer maxPeerCount m rest) as [[m' effects'] stopped].
    simpl in *. split; [done | split; [done |]].
    intros k q Hk. destruct (Hfrom2 k q Hk) as [Hm|Hstart].
    + left. by apply Hfrom1.
    + right. right. apply elem_of_app. by right.
Qed.

(** X12: whatever arrives on its channels, the peer handler keeps the peer
    index within the limit and every peer filed under its own address, and
    each peer that is in the index afterwards either was there before or
    has been started by the handler. *)
Theorem handlePeers_invariants peerIndex (events : list (peer_event peer)) :
  Z.of_nat (size peerIndex) ≤ maxPeerCount →
  keyed peerIndex →
  Z.of_nat (size (handlePeers peer maxPeerCount peerIndex events).1.1)
  ≤ maxPeerCount
  ∧ keyed (handlePeers peer maxPeerCount peerIndex events).1.1
  ∧ ∀ k q, (handlePeers peer maxPeerCount peerIndex events).1.1 !! k = Some q →
           peerIndex !! k = Some q
           ∨ PeerStart q ∈ (handlePeers peer maxPeerCount peerIndex events).1.2.
Proof.
  intros Hsize Hkeyed.
  destruct (PeerLoop_invariants peerIndex events Hsize Hkeyed)
    as (Hsize' & Hkeyed' & Hfrom).
  unfold handlePeers.
  destruct (PeerLoop peer maxPeerCount peerIndex events)
    as [[m effects] stopped].
  simpl in *. split; [done | split; [done |]].
  intros k q Hk. destruct (Hfrom k q Hk) as [?|Hstart]; first by left.
  right. right. apply elem_of_app. by left.
Qed.

(** X13: a peer that is done is taken out of the index; a done signal for
    an address that is not in the index changes nothing, so that a second
    signal is harmless; and taking out a peer that has just been added
    gives back the index as it was. *)
Theorem processDonePeer_removes peerIndex p :
  (processDonePeer peer peerIndex p).1 !! String_ p = None
  ∧ (peerIndex !! String_ p = None →
     (processDonePeer peer peerIndex p).1 = peerIndex)
  ∧ (processDonePeer peer (processDonePeer peer peerIndex p).1 p).1
    = (processDonePeer peer peerIndex p).1
  ∧ (peerIndex !! String_ p = None →
     Z.of_nat (size peerIndex) < maxPeerCount →
     (processDonePeer peer
        (processNewPeer peer maxPeerCount peerIndex p).1 p).1
     = peerIndex).
Proof.
  assert ((processDonePeer peer peerIndex p).1 !! String_ p = None) as Hgone.
  { unfold processDonePeer.
    destruct (peerIndex !! String_ p) eqn:Hp; simpl; first apply lookup_delete_eq.
    done. }
  split; [done | split; [|split]].
  - intros Hp. unfold processDonePeer. by rewrite Hp.
  - unfold processDonePeer at 1. by rewrite Hgone.
  - intros Hp Hroom. unfold processNewPeer. rewrite Hp.
    destruct (Z.geb_spec (Z.of_nat (size peerIndex)) maxPeerCount);
      first lia.
    simpl. unfold processDonePeer. rewrite lookup_insert_eq. simpl.
    rewrite delete_insert_eq. by apply delete_id.
Qed.

(** X14: the index is searched by address, not by peer: the done signal of
    any peer with the address of an indexed peer takes the indexed peer out
    of the index, and makes no call on either of them. *)
Theorem processDonePeer_by_address peerIndex p q :
  peerIndex !! String_ p = Some p →
  String_ q = String_ p →
  (processDonePeer peer peerIndex q).1 = delete (String_ p) peerIndex
  ∧ (processDonePeer peer peerIndex q).1 !! String_ p = None
  ∧ ∀ r, (PeerStop r ∉ (processDonePeer peer peerIndex q).2)
         ∧ (PeerStart r ∉ (processDonePeer peer peerIndex q).2).
Proof.
  intros Hp Hq. unfold processDonePeer. rewrite Hq, Hp. simpl.
  split; [done | split; [apply lookup_delete_eq |]].
  intros r. split; intros Hin; apply list_elem_of_singleton in Hin;
    discriminate.
Qed.

End PeerFacts.

(** ** The connection manager: listening and dialling *)

(** X15: the listener handler never gets to create an incoming peer.  Its
    first look at what [AcceptTCP] returned asks the error for its text:
    when a connection was accepted there is no error and the handler
    panics, and on any error it leaves its loop. *)
Theorem handleListener_never_creates_peer (peerFails : option nat → bool)
    (accepts : list Manager.accepted) :
  (∀ conn,
     Manager.NewIncomingPeer conn
     ∉ (Manager.handleListener peerFails accepts).1)
  ∧ (Manager.handleListener peerFails accepts).2
    = match accepts with
      | [] => Manager.Blocked
      | a :: _ =>
          match Manager.acceptedErr a with
          | None => Manager.Panicked
          | Some _ => Manager.Returned
          end
      end.
Proof.
  unfold Manager.handleListener.
  assert (∀ (l : Manager.listen_level) (f : string) conn effects,
            Manager.NewIncomingPeer conn ∉ effects →
            Manager.NewIncomingPeer conn ∉ Manager.ListenLog l f :: effects)
    as Hlog.
  { intros l f conn effects Hnot Hin.
    apply elem_of_cons in Hin as [Heq|Hin]; [discriminate | done]. }
  destruct accepts as [|[conn [message|]] rest]; simpl.
  - split; last done. intros c. apply Hlog. by intros ?%elem_of_nil.
  - destruct (Contains message "use of closed network connection"); simpl.
    + split; last done. intros c. do 3 apply Hlog. by intros ?%elem_of_nil.
    + split; last done. intros c. do 3 apply Hlog. by intros ?%elem_of_nil.
  - split; last done. intros c. apply Hlog. by intros ?%elem_of_nil.
Qed.

Section DialFacts.

Import Manager.
Variable peer : Type.
Variable maxAddrAttempts : Z.
Context `{!Stringer TCPAddr}.

Implicit Types (peerIndex : gmap string peer) (get : nat → TCPAddr + string)
  (dialFails : TCPAddr → bool).

Lemma addPeer_tries_facts peerIndex get dialFails remaining calls :
  let effects :=
    addPeer_tries peer peerIndex get dialFails remaining calls in
  (length (filter (λ e, is_get e) effects) ≤ remaining)%nat
  ∧ (length (filter (λ e, is_dial e) effects) ≤ 1)%nat
  ∧ (∀ a, NewOutgoingPeer a ∈ effects → peerIndex !! String_ a = None)
  ∧ (∀ a, RepoAttempt a ∈ effects ↔
          NewOutgoingPeer a ∈ effects ∧ dialFails a = false).
Proof.
  revert calls. induction remaining as [|remaining IH]; intros calls effects;
    subst effects; cbn [addPeer_tries].
  - split; [done | split; [simpl; lia | split]]; intros a;
      rewrite ?elem_of_cons, ?elem_of_nil; naive_solver.
  - destruct (get calls) as [a|err].
    2: { split; [simpl; lia | split; [simpl; lia | split]]; intros b;
           rewrite ?elem_of_cons, ?elem_of_nil; naive_solver. }
    destruct (peerIndex !! String_ a) eqn:Hknown.
    + destruct (IH (S calls)) as (Hgets & Hdials & Hnew & Hattempt).
      split; [|split; [|split]].
      * rewrite filter_cons_True by done.
        rewrite filter_cons_False by (simpl; auto).
        simpl. lia.
      * by rewrite !filter_cons_False by (simpl; auto).
      * intros b. rewrite !elem_of_cons. naive_solver.
      * intros b. rewrite !elem_of_cons.
        specialize (Hattempt b). naive_solver.
    + destruct (dialFails a) eqn:Hfails;
        (split; [simpl; lia | split; [simpl; lia | split]]); intros b;
        rewrite ?elem_of_cons, ?elem_of_nil.
      * intuition (try discriminate; congruence).
      * intuition (try discriminate; congruence).
      * intuition (try discriminate; congruence).
      * split.
        -- intros [?|[?|[?|[Heq|[]]]]]; try discriminate.
           injection Heq as ->. split; [by right; left | done].
        -- intros [[?|[Heq|[?|[?|[]]]]] _]; try discriminate.
           injection Heq as ->. by do 3 right; left.
Qed.

(** X16: one run of [addPeer] asks the repository for an address at most
    maxAddrAttempts times and sets up at most one outgoing peer, never for
    an address that is in the peer index; it reports an attempt to the
    repository exactly for the address whose peer it could set up. *)
Theorem addPeer_dials_once peerIndex get dialFails :
  let effects := addPeer peer maxAddrAttempts peerIndex get dialFails in
  (Z.of_nat (length (filter (λ e, is_get e) effects))
   ≤ Z.max 0 maxAddrAttempts)
  ∧ (length (filter (λ e, is_dial e) effects) ≤ 1)%nat
  ∧ (∀ a, NewOutgoingPeer a ∈ effects → peerIndex !! String_ a = None)
  ∧ (∀ a, RepoAttempt a ∈ effects ↔
          NewOutgoingPeer a ∈ effects ∧ dialFails a = false).
Proof.
  intros effects. subst effects. unfold addPeer.
  destruct (addPeer_tries_facts peerIndex get dialFails
              (Z.to_nat maxAddrAttempts) 0) as (Hgets & Hrest).
  split; last done. lia.
Qed.

End DialFacts.

(** ** Local interfaces *)

Section LocalIPFacts.

Import Util.

Lemma FindLocalIPs_addr_spec (ips : list IP) (addr : Addr) (ip : IP) :
  ip ∈ FindLocalIPs_addr ips addr ↔
  ip ∈ ips ∨ (carries addr ip ∧ IsLoopback ip = false ∧ To4 ip ≠ []).
Proof.
  unfold FindLocalIPs_addr, carries.
  destruct addr as [ip' mask|ip' zone|].
  3: { split; [by left | intros [?|([[? ?]|[? ?]] & _)]; done]. }
  all: destruct (IsLoopback ip') eqn:Hloop;
    [|destruct (To4 ip') as [|b rest] eqn:H4];
    rewrite ?elem_of_app, ?list_elem_of_singleton;
    (split;
     [ (intros [?| ->]; [by left | right; repeat split; eauto; congruence])
       || (intros ?; by left)
     | intros [?|([[? [= <-]]|[? [= <-]]] & ? & ?)];
       try done; try congruence; auto ]).
Qed.

Lemma FindLocalIPs_addrs_spec (addrs : list Addr) (ips : list IP) (ip : IP) :
  ip ∈ foldl FindLocalIPs_addr ips addrs ↔
  ip ∈ ips
  ∨ ∃ addr, addr ∈ addrs ∧ carries addr ip
            ∧ IsLoopback ip = false ∧ To4 ip ≠ [].
Proof.
  revert ips. induction addrs as [|addr addrs IH]; intros ips; simpl.
  - split; [by left | intros [?|(? & ?%elem_of_nil & _)]; done].
  - rewrite IH, FindLocalIPs_addr_spec. split.
    + intros [[?|?]|(addr' & ? & ?)].
      * by left.
      * right. exists addr. split; [by left | done].
      * right. exists addr'. split; [by right | done].
    + intros [?|(addr' & Hin & ?)]; first by left; left.
      apply elem_of_cons in Hin as [->|?].
      * left. by right.
      * right. by exists addr'.
Qed.

Lemma FindLocalIPs_iface_spec (acc : list IP * list string)
    (iface : Interface) (ip : IP) :
  ip ∈ (FindLocalIPs_iface acc iface).1 ↔
  ip ∈ acc.1
  ∨ ∃ addrs addr, usable iface addrs ∧ addr ∈ addrs ∧ carries addr ip
                  ∧ IsLoopback ip = false ∧ To4 ip ≠ [].
Proof.
  destruct acc as [ips logged]. unfold FindLocalIPs_iface, usable. simpl.
  destruct (Z.eqb_spec (Z.land (Flags iface) FlagUp) 0) as [Hdown|Hup].
  { simpl. split; [by left | intros [?|(? & ? & (? & _) & _)]; done]. }
  destruct (Z.eqb_spec (Z.land (Flags iface) FlagLoopback) 0) as [Hnot|Hloop].
  2: { simpl. split; [by left | intros [?|(? & ? & (_ & ? & _) & _)]; done]. }
  simpl. destruct (Addrs iface) as [addrs|err].
  2: { simpl. split; [by left | intros [?|(? & ? & (_ & _ & ?) & _)]; done]. }
  simpl. rewrite FindLocalIPs_addrs_spec. split.
  - intros [?|(addr & ? & ?)]; first by left.
    right. by exists addrs, addr.
  - intros [?|(addrs' & addr & (_ & _ & [= <-]) & ? & ?)]; first by left.
    right. by exists addr.
Qed.

(** X17: [FindLocalIPs] returns exactly the IPs that an interface which is
    up and not a loopback interface reports in an IPNet or IPAddr address,
    that are no loopback address and that convert to four bytes; an address
    that has no four-byte form is never returned.  When the interfaces
    cannot be listed it returns nothing and logs the error. *)
Theorem FindLocalIPs_spec (ifaces : list Interface) (err : string) (ip : IP) :
  (ip ∈ (FindLocalIPs (inl ifaces)).1 ↔
   ∃ iface addrs addr,
     iface ∈ ifaces ∧ usable iface addrs ∧ addr ∈ addrs ∧ carries addr ip
     ∧ IsLoopback ip = false ∧ To4 ip ≠ [])
  ∧ FindLocalIPs (inr err) = ([], [err]).
Proof.
  split; last done.
  unfold FindLocalIPs.
  assert (∀ acc,
            ip ∈ (foldl FindLocalIPs_iface acc ifaces).1 ↔
            ip ∈ acc.1
            ∨ ∃ iface addrs addr,
                iface ∈ ifaces ∧ usable iface addrs ∧ addr ∈ addrs
                ∧ carries addr ip ∧ IsLoopback ip = false ∧ To4 ip ≠ [])
    as Hfold.
  { induction ifaces as [|iface ifaces IH]; intros acc; simpl.
    - split; [by left | intros [?|(? & ? & ? & ?%elem_of_nil & _)]; done].
    - rewrite IH, FindLocalIPs_iface_spec. split.
      + intros [[?|(addrs & addr & ?)]|(iface' & addrs & addr & ? & ?)].
        * by left.
        * right. exists iface, addrs, addr. split; [by left | done].
        * right. exists iface', addrs, addr. split; [by right | done].
      + intros [?|(iface' & addrs & addr & Hin & ?)]; first by left; left.
        apply elem_of_cons in Hin as [->|?].
        * left. right. by exists addrs, addr.
        * right. by exists iface', addrs, addr. }
  rewrite Hfold. simpl. split.
  - intros [?%elem_of_nil|?]; done.
  - intros ?. by right.
Qed.

End LocalIPFacts.

(** ** The binary form of an address record *)

Lemma fromLittleEndian_littleEndian (n : nat) (v : Z) :
  fromLittleEndian (littleEndian n v) = v mod 256 ^ Z.of_nat n.
Proof.
  revert v. induction n as [|n IH]; intros v.
  - simpl. by rewrite Z.mod_1_r.
  - cbn [littleEndian]. unfold fromLittleEndian in *. cbn [foldr].
    rewrite IH, Nat2Z.inj_succ, Z.pow_succ_r by lia.
    rewrite Z.rem_mul_r by lia. done.
Qed.

Lemma drop_past {A} (l1 l2 : list A) (n m : nat) :
  length l1 = n → drop (n + m) (l1 ++ l2) = drop m l2.
Proof. intros <-. by rewrite drop_app_add. Qed.

Lemma take_front {A} (l1 l2 : list A) (n : nat) :
  length l1 = n → take n (l1 ++ l2) = l1.
Proof. intros <-. by rewrite take_app_length. Qed.

Section BinaryFacts.

Variable EntryRecord : Type.
Variable EntryRecord_Bytes : EntryRecord → list Z.
Variable ParseCommand : string → Z.

Implicit Types (ar : Recorder.AddressRecord EntryRecord).

Lemma AddressRecord_Bytes_parts ar :
  Recorder.AddressRecord_Bytes EntryRecord EntryRecord_Bytes ParseCommand ar
  = littleEndian 8 (UnixNano (Recorder.stamp _ ar))
      ++ To16 (addrIP (Recorder.ra _ ar))
      ++ littleEndian 2 (addrPort (Recorder.ra _ ar) mod 2 ^ 16)
      ++ To16 (addrIP (Recorder.la _ ar))
      ++ littleEndian 2 (addrPort (Recorder.la _ ar) mod 2 ^ 16)
      ++ littleEndian 1 (ParseCommand (Recorder.cmd _ ar))
      ++ littleEndian 2 (Z.of_nat (length (Recorder.addrs _ ar)) mod 2 ^ 16)
      ++ concat (EntryRecord_Bytes <$> Recorder.addrs _ ar).
Proof.
  unfold Recorder.AddressRecord_Bytes. rewrite foldl_append_buffer.
  rewrite app_nil_l. by rewrite <- !app_assoc.
Qed.

(** X18: the header of the binary form can be read back field by field:
    the timestamp from byte 0, the remote IP from byte 8 and its port from
    byte 24, the local IP from byte 26 and its port from byte 42, the
    command code at byte 44 and the entry count from byte 45, each integer
    reduced to the width of its field, so that a count of 65536 entries or
    more is not recorded as it is; the entries follow from byte 47. *)
Theorem AddressRecord_Bytes_layout ar :
  length (addrIP (Recorder.ra _ ar)) = 4%nat
    ∨ length (addrIP (Recorder.ra _ ar)) = 16%nat →
  length (addrIP (Recorder.la _ ar)) = 4%nat
    ∨ length (addrIP (Recorder.la _ ar)) = 16%nat →
  let bytes :=
    Recorder.AddressRecord_Bytes EntryRecord EntryRecord_Bytes ParseCommand
      ar in
  fromLittleEndian (take 8 bytes) = UnixNano (Recorder.stamp _ ar) mod 2 ^ 64
  ∧ take 16 (drop 8 bytes) = To16 (addrIP (Recorder.ra _ ar))
  ∧ fromLittleEndian (take 2 (drop 24 bytes))
    = addrPort (Recorder.ra _ ar) mod 2 ^ 16
  ∧ take 16 (drop 26 bytes) = To16 (addrIP (Recorder.la _ ar))
  ∧ fromLittleEndian (take 2 (drop 42 bytes))
    = addrPort (Recorder.la _ ar) mod 2 ^ 16
  ∧ fromLittleEndian (take 1 (drop 44 bytes))
    = ParseCommand (Recorder.cmd _ ar) mod 2 ^ 8
  ∧ fromLittleEndian (take 2 (drop 45 bytes))
    = Z.of_nat (length (Recorder.addrs _ ar)) mod 2 ^ 16
  ∧ drop 47 bytes = concat (EntryRecord_Bytes <$> Recorder.addrs _ ar).
Proof.
  intros Hra Hla bytes. subst bytes. rewrite AddressRecord_Bytes_parts.
  pose proof (To16_length _ Hra) as Hra16.
  pose proof (To16_length _ Hla) as Hla16.
  set (rest := concat _).
  repeat split.
  - rewrite take_front by apply littleEndian_length.
    by rewrite fromLittleEndian_littleEndian.
  - rewrite (drop_past _ _ 8 0) by apply littleEndian_length.
    by rewrite drop_0, take_front.
  - rewrite (drop_past _ _ 8 16) by apply littleEndian_length.
    rewrite (drop_past _ _ 16 0), drop_0 by done.
    rewrite take_front by apply littleEndian_length.
    rewrite fromLittleEndian_littleEndian.
    by rewrite Z.mod_mod by lia.
  - rewrite (drop_past _ _ 8 18) by apply littleEndian_length.
    rewrite (drop_past _ _ 16 2) by done.
    rewrite (drop_past _ _ 2 0), drop_0 by apply littleEndian_length.
    by rewrite take_front.
  - rewrite (drop_past _ _ 8 34) by apply littleEndian_length.
    rewrite (drop_past _ _ 16 18) by done.
    rewrite (drop_past _ _ 2 16) by apply littleEndian_length.
    rewrite (drop_past _ _ 16 0), drop_0 by done.
    rewrite take_front by apply littleEndian_length.
    rewrite fromLittleEndian_littleEndian.
    by rewrite Z.mod_mod by lia.
  - rewrite (drop_past _ _ 8 36) by apply littleEndian_length.
    rewrite (drop_past _ _ 16 20) by done.
    rewrite (drop_past _ _ 2 18) by apply littleEndian_length.
    rewrite (drop_past _ _ 16 2) by done.
    rewrite (drop_past _ _ 2 0), drop_0 by apply littleEndian_length.
    rewrite take_front by apply littleEndian_length.
    by rewrite fromLittleEndian_littleEndian.
  - rewrite (drop_past _ _ 8 37) by apply littleEndian_length.
    rewrite (drop_past _ _ 16 21) by done.
    rewrite (drop_past _ _ 2 19) by apply littleEndian_length.
    rewrite (drop_past _ _ 16 3) by done.
    rewrite (drop_past _ _ 2 1) by apply littleEndian_length.
    rewrite (drop_past _ _ 1 0), drop_0 by apply littleEndian_length.
    rewrite take_front by apply littleEndian_length.
    rewrite fromLittleEndian_littleEndian.
    by rewrite Z.mod_mod by lia.
  - rewrite (drop_past _ _ 8 39) by apply littleEndian_length.
    rewrite (drop_past _ _ 16 23) by done.
    rewrite (drop_past _ _ 2 21) by apply littleEndian_length.
    rewrite (drop_past _ _ 16 5) by done.
    rewrite (drop_past _ _ 2 3) by apply littleEndian_length.
    rewrite (drop_past _ _ 1 2) by apply littleEndian_length.
    by rewrite (drop_past _ _ 2 0), drop_0 by apply littleEndian_length.
Qed.

(** X19: in general the binary form is 15 bytes, the two IPs as [To16]
    gives them and 30 bytes for each entry long; an endpoint whose IP is
    neither 4 nor 16 bytes long contributes no IP bytes at all, which makes
    the record 16 bytes shorter. *)
Theorem AddressRecord_Bytes_length_any ar :
  Forall (λ a, length (EntryRecord_Bytes a) = 30%nat) (Recorder.addrs _ ar) →
  length (Recorder.AddressRecord_Bytes EntryRecord EntryRecord_Bytes
            ParseCommand ar)
  = (15 + length (To16 (addrIP (Recorder.ra _ ar)))
       + length (To16 (addrIP (Recorder.la _ ar)))
       + 30 * length (Recorder.addrs _ ar))%nat
  ∧ ∀ ip : IP, length ip ≠ 4%nat → length ip ≠ 16%nat → To16 ip = [].
Proof.
  intros Hentries. split.
  - rewrite AddressRecord_Bytes_parts.
    rewrite !length_app, !littleEndian_length.
    rewrite (concat_length_const _ _ 30%nat) by done. lia.
  - intros ip H4 H16. unfold To16.
    destruct (Nat.eqb_spec (length ip) 4); first done.
    by destruct (Nat.eqb_spec (length ip) 16).
Qed.

End BinaryFacts.

(** ** The file writer: rotation, writing and shutdown *)

Section WriterMoreFacts.

Import Writer.
Implicit Types (w : FileWriter) (sys : Sys) (sched : list (received * Sys)).








End WriterMoreFacts.

(** ** Worked cases for the further properties *)

Lemma Stop_after_restart_panics_witness :
  let started :=
    {| Repository.repo_nodeIndex := ∅;
       Repository.repo_sigSave := false;
       Repository.repo_sigNode := false;
       Repository.repo_nodeQ :=
         [Repository.newNode
            {| addrIP := [1; 2; 3; 4]; addrPort := 18333; addrZone := "" |}
            {| addrIP := IPv4zero; addrPort := 0; addrZone := "" |}];
       Repository.repo_wg := 2;
       Repository.repo_state := 2 |} in
  @Repository.Start dotted 0 2 64 TestNet3 oneSeed resolveLiteral IP_dotted
    Repository.NoFile (Repository.NewRepository 0)
  = Some started
  ∧ ∃ stopped ops,
      Repository.Stop 0 2 true (λ _, [[1]]) started = Some (stopped, ops)
      ∧ Repository.repo_state stopped = 0
      ∧ ∀ restarted,
          @Repository.Start dotted 0 2 64 TestNet3 oneSeed resolveLiteral
            IP_dotted Repository.NoFile stopped = Some restarted →
          Repository.repo_state restarted = 2
          ∧ Repository.Stop 0 2 true (λ _, [[1]]) restarted = None.
Proof.
  intros started.
  assert (@Repository.Start dotted 0 2 64 TestNet3 oneSeed resolveLiteral
            IP_dotted Repository.NoFile (Repository.NewRepository 0)
          = Some started) as Hstart by (vm_compute; reflexivity).
  split; first exact Hstart.
  exact (@Stop_after_restart_panics dotted IP_dotted 0 2 64 TestNet3 oneSeed
           resolveLiteral Repository.NoFile Repository.NoFile true true
           (λ _, [[1]]) started Hstart).
Defined.

Lemma handlePeers_invariants_witness :
  let first := {| connId := 1; connRemote := peerA |} in
  let second := {| connId := 2; connRemote := peerB |} in
  Z.of_nat
    (size (@Manager.handlePeers conn conn_String 2
             {[ "1.2.3.4:8333" := first ]}
             [Manager.PeerNew second; Manager.PeerDone first;
              Manager.SigPeerClosed]).1.1)
  ≤ 2.
Proof.
  intros first second.
  assert (Z.of_nat (size ({[ "1.2.3.4:8333" := first ]} : gmap string conn))
          ≤ 2) as Hsize by (vm_compute; discriminate).
  assert (@keyed conn conn_String {[ "1.2.3.4:8333" := first ]}) as Hkeyed.
  { intros k p Hk. apply lookup_singleton_Some in Hk as [<- <-]. reflexivity. }
  exact (proj1 (@handlePeers_invariants conn conn_String 2 _
                  [Manager.PeerNew second; Manager.PeerDone first;
                   Manager.SigPeerClosed] Hsize Hkeyed)).
Defined.

Lemma processDonePeer_by_address_witness :
  let first := {| connId := 1; connRemote := peerA |} in
  let again := {| connId := 2; connRemote := peerA |} in
  (@Manager.processDonePeer conn conn_String
     {[ "1.2.3.4:8333" := first ]} again).1 !! "1.2.3.4:8333" = None.
Proof.
  intros first again.
  assert (({[ "1.2.3.4:8333" := first ]} : gmap string conn)
            !! conn_String first = Some first) as Hfirst by reflexivity.
  assert (conn_String again = conn_String first) as Hsame by reflexivity.
  exact (proj1 (proj2 (@processDonePeer_by_address conn conn_String
                         _ first again Hfirst Hsame))).
Defined.

Lemma AddressRecord_Bytes_layout_witness :
  fromLittleEndian
    (take 8 (@Recorder.AddressRecord_Bytes entry entry_Bytes (λ _, 1)
               twoAddrs))
  = 1433160000000000001 mod 2 ^ 64.
Proof.
  assert (length (addrIP (Recorder.ra entry twoAddrs)) = 4%nat
          ∨ length (addrIP (Recorder.ra entry twoAddrs)) = 16%nat) as Hra
    by (left; reflexivity).
  assert (length (addrIP (Recorder.la entry twoAddrs)) = 4%nat
          ∨ length (addrIP (Recorder.la entry twoAddrs)) = 16%nat) as Hla
    by (left; reflexivity).
  exact (proj1 (@AddressRecord_Bytes_layout entry entry_Bytes (λ _, 1)
                  twoAddrs Hra Hla)).
Defined.

Lemma AddressRecord_Bytes_length_any_witness :
  length (@Recorder.AddressRecord_Bytes entry entry_Bytes (λ _, 1) noRemoteIP)
  = 91%nat.
Proof.
  assert (Forall (λ a, length (entry_Bytes a) = 30%nat)
            (Recorder.addrs entry noRemoteIP)) as Hentries
    by (repeat constructor).
  exact (proj1 (@AddressRecord_Bytes_length_any entry entry_Bytes (λ _, 1)
                  noRemoteIP Hentries)).
Defined.



